(** * Finger-Firework: pinch trigger and particle bursts

    A shallow embedding of the sketch in [components/FireworkSketch.tsx]
    (classes [Particle] and [Firework], and the [p.draw] callback with its
    pinch detection), together with the properties of its specification.

    JavaScript numbers are kept abstract behind the class [Number]: the
    code is translated once, over the operations it uses ([+ - * /],
    [Math.sqrt], [<], [===] and decimal literals).  Two instances are given:
    IEEE binary64 ([float], the numbers the browser computes with, which can
    be evaluated) and the real numbers ([R], their idealisation, in which the
    arithmetic properties are proved).  Properties that only depend on the
    shape of the computation are proved for every instance.

    The colours of p5 are kept behind the class [Colour] in the same way:
    the sketch is translated over [p.color] and [p.hue], and the instance
    [p5_Colour] gives the conversion of the library, in which a colour is
    stored as red, green and blue and its hue is computed back from them. *)

From Stdlib Require Import ssreflect QArith Reals Lra Lia.
From Stdlib Require Import PrimFloat Uint63 SpecFloat FloatOps.
From stdpp Require Import gmap list option.

(** ** Numbers *)

Class Number (num : Type) := {
  lit : Q -> num;              (* a decimal literal of the source *)
  add : num -> num -> num;
  sub : num -> num -> num;
  mul : num -> num -> num;
  div : num -> num -> num;
  sqrt : num -> num;           (* Math.sqrt *)
  ltb : num -> num -> bool;    (* a < b *)
  eqb : num -> num -> bool;    (* a === b *)
}.

Arguments lit {num _} q%_Q.

Declare Scope num_scope.
Delimit Scope num_scope with num.
Infix "+" := add : num_scope.
Infix "-" := sub : num_scope.
Infix "*" := mul : num_scope.
Infix "/" := div : num_scope.
Infix "<?" := ltb : num_scope.
Notation "a >? b" := (ltb b a) (only parsing) : num_scope.
Notation "a !== b" := (negb (eqb a b)) (at level 70) : num_scope.

(** IEEE binary64.  A literal is the correctly rounded quotient of its
    numerator and denominator, which is the double nearest to the decimal. *)
Definition float_of_Z (z : Z) : float :=
  match z with
  | Z0 => PrimFloat.zero
  | Zpos _ => PrimFloat.of_uint63 (Uint63.of_Z z)
  | Zneg p => PrimFloat.opp (PrimFloat.of_uint63 (Uint63.of_Z (Zpos p)))
  end.

Definition float_lit (q : Q) : float :=
  PrimFloat.div (float_of_Z (Qnum q)) (float_of_Z (Zpos (Qden q))).

#[export] Instance float_Number : Number float := {|
  lit := float_lit;
  add := PrimFloat.add;
  sub := PrimFloat.sub;
  mul := PrimFloat.mul;
  div := PrimFloat.div;
  sqrt := PrimFloat.sqrt;
  ltb := PrimFloat.ltb;
  eqb := PrimFloat.eqb;
|}.

(** Real numbers. *)
Definition Rltb (a b : R) : bool :=
  match Rlt_dec a b with left _ => true | right _ => false end.
Definition Reqb (a b : R) : bool :=
  match Req_dec_T a b with left _ => true | right _ => false end.

#[export] Instance R_Number : Number R := {|
  lit := Q2R;
  add := Rplus;
  sub := Rminus;
  mul := Rmult;
  div := Rdiv;
  sqrt := R_sqrt.sqrt;
  ltb := Rltb;
  eqb := Reqb;
|}.

(** [Math.floor], [Math.max] and [Math.min], which the colours of p5 use. *)
Class Mathematics (num : Type) := {
  floor : num -> num;
  max : num -> num -> num;
  min : num -> num -> num;
}.

(* the integer part towards minus infinity, from the mantissa and the
   exponent of the double *)
Definition float_floor (f : float) : float :=
  match Prim2SF f with
  | S754_finite s m e =>
      if (0 <=? e)%Z then f
      else
        let q := Z.shiftr (Zpos m) (Z.opp e) in
        let exact := (Z.shiftl q (Z.opp e) =? Zpos m)%Z in
        if s then float_of_Z (Z.opp (if exact then q else Z.succ q))
        else float_of_Z q
  | _ => f
  end.

(* NaN if an argument is NaN; of two zeros, max is the positive one and
   min the negative one *)
Definition float_max (a b : float) : float :=
  if PrimFloat.is_nan a then a
  else if PrimFloat.is_nan b then b
  else if PrimFloat.ltb a b then b
  else if PrimFloat.ltb b a then a
  else if PrimFloat.get_sign a then b else a.

Definition float_min (a b : float) : float :=
  if PrimFloat.is_nan a then a
  else if PrimFloat.is_nan b then b
  else if PrimFloat.ltb a b then a
  else if PrimFloat.ltb b a then b
  else if PrimFloat.get_sign a then a else b.

#[export] Instance float_Mathematics : Mathematics float := {|
  floor := float_floor;
  max := float_max;
  min := float_min;
|}.

#[export] Instance R_Mathematics : Mathematics R := {|
  floor := fun r => IZR (Int_part r);
  max := Rmax;
  min := Rmin;
|}.

(** The colours of p5: [p.color(h, s, b)] builds a colour and [p.hue(c)]
    reads the hue of one.  The sketch is translated over any such pair of
    functions. *)
Class Colour (num : Type) := {
  Color : Type;
  p_color : num -> num -> num -> Color;
  p_hue : Color -> num;
}.

(** The colours of the p5 library itself (version 1, [color/p5.Color.js]
    and [color/color_conversion.js]), in the colour mode the sketch selects
    in [p.setup] and in [show]: [colorMode(HSB)], whose ranges are 360 for
    the hue, 100 for saturation and brightness and 1 for alpha.  A colour is
    stored as red, green, blue and alpha in [0, 1]; the hue is computed back
    from that array when it is asked for. *)
Section P5Color.

Context {num : Type} `{Number num} `{Mathematics num}.
Local Open Scope num_scope.

(* the [_array] of a p5.Color *)
Record RGBA := mkRGBA { red : num; green : num; blue : num; alpha : num }.

(* _parseInputs: "Constrain components to the range [0,1]" *)
Definition constrain01 (result : num) : num :=
  if result <? lit 0 then lit 0
  else if result >? lit 1 then lit 1
  else result.

(* color_conversion._hsbaToRGBA *)
Definition hsbaToRGBA (h s v a : num) : RGBA :=
  let hue := h * lit 6 in
  let sat := s in
  let val := v in
  if eqb sat (lit 0) then mkRGBA val val val a
  else
    let sector := floor hue in
    let tint1 := val * (lit 1 - sat) in
    let tint2 := val * (lit 1 - sat * (hue - sector)) in
    let tint3 := val * (lit 1 - sat * (lit 1 + sector - hue)) in
    if eqb sector (lit 1) then mkRGBA tint2 val tint1 a
    else if eqb sector (lit 2) then mkRGBA tint1 val tint3 a
    else if eqb sector (lit 3) then mkRGBA tint1 tint2 val a
    else if eqb sector (lit 4) then mkRGBA tint3 tint1 val a
    else if eqb sector (lit 5) then mkRGBA val tint1 tint2 a
    else mkRGBA val tint3 tint1 a.

(* color_conversion._rgbaToHSBA, first component of the result *)
Definition rgbaToHSBA_hue (c : RGBA) : num :=
  let val := max (max (red c) (green c)) (blue c) in
  let chroma := val - min (min (red c) (green c)) (blue c) in
  let hue :=
    if eqb chroma (lit 0) then lit 0
    else
      let hue :=
        if eqb (red c) val then (green c - blue c) / chroma
        else if eqb (green c) val then lit 2 + (blue c - red c) / chroma
        else if eqb (blue c) val then lit 4 + (red c - green c) / chroma
        else lit 0 / lit 0 (* left undefined by the library *) in
      if hue <? lit 0 then hue + lit 6
      else if (lit 6 <? hue) || eqb hue (lit 6) then hue - lit 6
      else hue in
  hue / lit 6.

(* p.color(v1, v2, v3) in HSB mode: _parseInputs *)
Definition p5_color (v1 v2 v3 : num) : RGBA :=
  hsbaToRGBA (constrain01 (v1 / lit 360)) (constrain01 (v2 / lit 100))
             (constrain01 (v3 / lit 100)) (constrain01 (lit 1)).

(* p.hue(c) in HSB mode: _getHue *)
Definition p5_hue (c : RGBA) : num := rgbaToHSBA_hue c * lit 360.

Definition p5_Colour : Colour num :=
  {| Color := RGBA; p_color := p5_color; p_hue := p5_hue |}.

End P5Color.

Arguments RGBA : clear implicits.

(** ** The p5 library, as far as the sketch uses it *)

Section Sketch.

Context {num : Type} `{Number num} `{Colour num}.
Local Open Scope num_scope.

(** [p5.Vector], restricted to the two components the sketch uses. *)
Record Vector := createVector { vx : num; vy : num }.

(* v.add(w), v.mult(k): the receiver after the call *)
Definition Vector_add (v w : Vector) : Vector :=
  createVector (vx v + vx w) (vy v + vy w).
Definition Vector_mult (v : Vector) (k : num) : Vector :=
  createVector (vx v * k) (vy v * k).

(** The random source.  [p.random(lo, hi)] takes the next value [u] of the
    generator and returns [u * (hi - lo) + lo]; [p5.Vector.random2D()]
    returns the next direction (a vector of length 1 at a random angle).
    Both sequences are given up front, with a cursor each. *)
Record RandomSource := mkRandomSource {
  uniform : nat -> num;
  unext : nat;
  directions : nat -> Vector;
  dnext : nat;
}.

Definition random (lo hi : num) (rs : RandomSource) : num * RandomSource :=
  (uniform rs (unext rs) * (hi - lo) + lo,
   mkRandomSource (uniform rs) (S (unext rs)) (directions rs) (dnext rs)).

Definition random2D (rs : RandomSource) : Vector * RandomSource :=
  (directions rs (dnext rs),
   mkRandomSource (uniform rs) (unext rs) (directions rs) (S (dnext rs))).

(** Calls received by the drawing surface. *)
Inductive DrawCall :=
| Clear
| Push
| Pop
| NoFill
| ColorModeHSB
| StrokeWeight (size : num)
| Stroke (h s b a : num)
| Point (x y : num)
| Circle (x y d : num).

(** ** class Particle *)

Record Particle := mkParticle {
  pos : Vector;
  vel : Vector;
  acc : Vector;
  color : Color;
  lifespan : num;
  decay : num;
}.

Definition Particle_new (x y hue : num) (explosion : bool) (rs : RandomSource)
  : Particle * RandomSource :=
  let pos := createVector x y in
  let lifespan := lit 255 in
  let color := p_color hue (lit 255) (lit 255) in
  let acc := createVector (lit 0) (lit 0) in
  if explosion then
    let '(vel, rs) := random2D rs in
    let '(speed, rs) := random (lit 5) (lit 22) rs in
    let vel := Vector_mult vel speed in
    let '(decay, rs) := random (lit 1.5) (lit 4) rs in
    (mkParticle pos vel acc color lifespan decay, rs)
  else
    let '(vy0, rs) := random (lit (-12)) (lit (-8)) rs in
    let vel := createVector (lit 0) vy0 in
    (mkParticle pos vel acc color lifespan (lit 0), rs).

Definition Particle_applyForce (this : Particle) (force : Vector) : Particle :=
  mkParticle (pos this) (vel this) (Vector_add (acc this) force)
             (color this) (lifespan this) (decay this).

Definition Particle_update (this : Particle) : Particle :=
  if lifespan this >? lit 0 then
    let vel := Vector_mult (vel this) (lit 0.92) in
    let vel := Vector_add vel (acc this) in
    let pos := Vector_add (pos this) vel in
    let acc := Vector_mult (acc this) (lit 0) in
    let lifespan := lifespan this - decay this in
    mkParticle pos vel acc (color this) lifespan (decay this)
  else this.

Definition Particle_show (this : Particle) : list DrawCall :=
  let size := if lifespan this >? lit 200 then lit 5 else lit 3 in
  [ ColorModeHSB;
    StrokeWeight size;
    Stroke (p_hue (color this)) (lit 255) (lit 255) (lifespan this / lit 255);
    Point (vx (pos this)) (vy (pos this)) ].

Definition Particle_done (this : Particle) : bool :=
  lifespan this <? lit 0.

(** ** class Firework *)

Record Firework := mkFirework {
  particles : list Particle;
  hue : num;
  done : bool;
}.

(* for (let i = 0; i < count; i++) this.particles.push(new Particle(...)) *)
Fixpoint explode_loop (todo : nat) (x y hue : num)
    (particles : list Particle) (rs : RandomSource)
  : list Particle * RandomSource :=
  match todo with
  | O => (particles, rs)
  | S todo =>
      let '(p, rs) := Particle_new x y hue true rs in
      explode_loop todo x y hue (particles ++ [p]) rs
  end.

Definition Firework_explode (this : Firework) (x y : num) (rs : RandomSource)
  : Firework * RandomSource :=
  let count := 120%nat in
  let '(ps, rs) := explode_loop count x y (hue this) (particles this) rs in
  (mkFirework ps (hue this) (done this), rs).

Definition Firework_new (x y : num) (rs : RandomSource)
  : Firework * RandomSource :=
  let '(hue, rs) := random (lit 0) (lit 360) rs in
  let this := mkFirework [] hue false in
  Firework_explode this x y rs.

Definition gravity : Vector := createVector (lit 0) (lit 0.15).

(** The loop of [Firework.update], with [i1 = i + 1] iterations left: it
    visits the indices [i1 - 1], ..., [0].  Reading a particle outside the
    array is a [TypeError] ([None]). *)
Fixpoint Firework_update_loop (i1 : nat) (particles : list Particle)
  : option (list Particle) :=
  match i1 with
  | O => Some particles
  | S i =>
      p ← particles !! i;
      let p := Particle_applyForce p gravity in
      let p := Particle_update p in
      let particles := <[i := p]> particles in
      if Particle_done p
      then Firework_update_loop i (delete i particles)
      else Firework_update_loop i particles
  end.

Definition Firework_update (this : Firework) : option Firework :=
  ps ← Firework_update_loop (length (particles this)) (particles this);
  let done := if Nat.eqb (length ps) 0 then true else done this in
  Some (mkFirework ps (hue this) done).

Definition Firework_show (this : Firework) : list DrawCall :=
  concat (map Particle_show (particles this)).

(** ** The sketch: state captured by [p.draw] *)

(* types.ts *)
Record Coordinate := mkCoordinate { x : num; y : num; z : num }.

Definition THUMB_TIP : nat := 4.
Definition INDEX_FINGER_TIP : nat := 8.

Record World := mkWorld {
  fireworks : list Firework;
  handPinchStates : gmap nat bool;   (* Hand Index -> isPinched *)
  lastVideoTime : num;
  width : num;                       (* p.width *)
  height : num;                      (* p.height *)
  rng : RandomSource;
}.

(** What one display frame brings from outside: the time of the video
    element ([None] when [videoRef.current] is null) and the field
    [landmarks] of what [detectForVideo] returns for it. *)
Record Frame := mkFrame {
  currentTime : option num;
  landmarks : option (list (list Coordinate));
}.

Definition distance (thumbTip indexTip : Coordinate) : num :=
  let dx := x thumbTip - x indexTip in
  let dy := y thumbTip - y indexTip in
  sqrt (dx * dx + dy * dy).

Definition pinchThreshold : num := lit 0.05.

(** The callback of [detections.landmarks.forEach((hand, index) => ...)].
    A hand without landmark 4 or 8 makes [thumbTip.x] a [TypeError]. *)
Definition landmarks_callback (hand : list Coordinate) (index : nat) (w : World)
  : option (World * list DrawCall) :=
  thumbTip ← hand !! THUMB_TIP;
  indexTip ← hand !! INDEX_FINGER_TIP;
  let distance := distance thumbTip indexTip in
  let isPinched := distance <? pinchThreshold in
  let wasPinched := default false (handPinchStates w !! index) in
  let midX := (x thumbTip + x indexTip) / lit 2 in
  let midY := (y thumbTip + y indexTip) / lit 2 in
  let '(fireworks, rng) :=
    if isPinched && negb wasPinched then
      let x := midX * width w in
      let y := midY * height w in
      let '(fw, rng) := Firework_new x y (rng w) in
      (fireworks w ++ [fw], rng)
    else (fireworks w, rng w) in
  let handPinchStates := <[index := isPinched]> (handPinchStates w) in
  let calls :=
    [Push; NoFill; Stroke (lit 0) (lit 0) (lit 255) (lit 0.4);
     StrokeWeight (lit 4)]
    ++ (if distance <? pinchThreshold * lit 2 then
          [Stroke (lit 0) (lit 255) (lit 255) (lit 0.6)]
          ++ (if isPinched
              then [Stroke (lit 100) (lit 255) (lit 255) (lit 0.8)] else [])
          ++ [Circle (midX * width w) (midY * height w) (lit 20)]
        else [])
    ++ [Pop] in
  Some (mkWorld fireworks handPinchStates (lastVideoTime w)
                (width w) (height w) rng, calls).

(* forEach over the hands that are left, the first of them at [index] *)
Fixpoint landmarks_forEach (hands : list (list Coordinate)) (index : nat)
    (w : World) : option (World * list DrawCall) :=
  match hands with
  | [] => Some (w, [])
  | hand :: hands =>
      '(w, calls) ← landmarks_callback hand index w;
      '(w, calls') ← landmarks_forEach hands (S index) w;
      Some (w, calls ++ calls')
  end.

(** The detection part of [p.draw].  [handLandmarker] is set before the
    sketch is created and never cleared, so only the video is tested. *)
Definition detection (frame : Frame) (w : World)
  : option (World * list DrawCall) :=
  match currentTime frame with
  | Some t =>
      if t !== lastVideoTime w then
        let w := mkWorld (fireworks w) (handPinchStates w) t
                         (width w) (height w) (rng w) in
        match landmarks frame with
        | Some hands => landmarks_forEach hands 0 w
        | None => Some (w, [])
        end
      else Some (w, [])
  | None => Some (w, [])
  end.

(** The loop "Update and draw fireworks" of [p.draw], with [i1 = i + 1]
    iterations left.  It returns the bursts kept and the calls issued. *)
Fixpoint fireworks_loop (i1 : nat) (fireworks : list Firework)
  : option (list Firework * list DrawCall) :=
  match i1 with
  | O => Some (fireworks, [])
  | S i =>
      fw ← fireworks !! i;
      fw ← Firework_update fw;
      let fireworks := <[i := fw]> fireworks in
      let calls := Firework_show fw in
      let fireworks := if done fw then delete i fireworks else fireworks in
      '(fireworks, calls') ← fireworks_loop i fireworks;
      Some (fireworks, calls ++ calls')
  end.

Definition draw (frame : Frame) (w : World) : option (World * list DrawCall) :=
  '(w, calls) ← detection frame w;
  '(fws, calls') ← fireworks_loop (length (fireworks w)) (fireworks w);
  Some (mkWorld fws (handPinchStates w) (lastVideoTime w)
                (width w) (height w) (rng w),
        [Clear] ++ calls ++ calls').

(** The state when the sketch starts: no burst, no hand seen, and
    [lastVideoTime = -1]. *)
Definition initial (w h : num) (rs : RandomSource) : World :=
  mkWorld [] ∅ (lit (-1)) w h rs.

(** Successive frames, with the calls of each. *)
Fixpoint run (frames : list Frame) (w : World)
  : option (World * list (list DrawCall)) :=
  match frames with
  | [] => Some (w, [])
  | frame :: frames =>
      '(w, calls) ← draw frame w;
      '(w, rest) ← run frames w;
      Some (w, calls :: rest)
  end.

End Sketch.

Arguments Vector : clear implicits.
Arguments RandomSource : clear implicits.
Arguments DrawCall : clear implicits.
Arguments Particle num {_}.
Arguments Firework num {_}.
Arguments Coordinate : clear implicits.
Arguments World num {_}.
Arguments Frame : clear implicits.
Arguments Firework_new : simpl never.
Arguments Firework_explode : simpl never.

(** ** The order of the writes

    [Particle.applyForce], [Particle.update] and [Firework.update] once
    more, statement by statement: every statement that writes a field of a
    particle or removes a particle from the array appends itself, with the
    index of the particle, to a log when it is executed. *)

Inductive Write :=
| acc_add (i : nat)        (* applyForce: this.acc.add(force) *)
| vel_mult (i : nat)       (* update: this.vel.mult(0.92) *)
| vel_add (i : nat)        (* update: this.vel.add(this.acc) *)
| pos_add (i : nat)        (* update: this.pos.add(this.vel) *)
| acc_mult (i : nat)       (* update: this.acc.mult(0) *)
| lifespan_sub (i : nat)   (* update: this.lifespan -= this.decay *)
| splice (i : nat).        (* Firework.update: this.particles.splice(i, 1) *)

Section Order.

Context {num : Type} `{Number num} `{Colour num}.
Local Open Scope num_scope.

Definition Particle_applyForce_log (i : nat) (this : Particle num)
    (force : Vector num) (log : list Write) : Particle num * list Write :=
  let this := mkParticle (pos this) (vel this) (Vector_add (acc this) force)
                         (color this) (lifespan this) (decay this) in
  (this, log ++ [acc_add i]).

Definition Particle_update_log (i : nat) (this : Particle num)
    (log : list Write) : Particle num * list Write :=
  if lifespan this >? lit 0 then
    let this := mkParticle (pos this) (Vector_mult (vel this) (lit 0.92))
                           (acc this) (color this) (lifespan this)
                           (decay this) in
    let log := log ++ [vel_mult i] in
    let this := mkParticle (pos this) (Vector_add (vel this) (acc this))
                           (acc this) (color this) (lifespan this)
                           (decay this) in
    let log := log ++ [vel_add i] in
    let this := mkParticle (Vector_add (pos this) (vel this)) (vel this)
                           (acc this) (color this) (lifespan this)
                           (decay this) in
    let log := log ++ [pos_add i] in
    let this := mkParticle (pos this) (vel this)
                           (Vector_mult (acc this) (lit 0)) (color this)
                           (lifespan this) (decay this) in
    let log := log ++ [acc_mult i] in
    let this := mkParticle (pos this) (vel this) (acc this) (color this)
                           (lifespan this - decay this) (decay this) in
    let log := log ++ [lifespan_sub i] in
    (this, log)
  else (this, log).

Fixpoint Firework_update_loop_log (i1 : nat) (particles : list (Particle num))
    (log : list Write) : option (list (Particle num) * list Write) :=
  match i1 with
  | O => Some (particles, log)
  | S i =>
      p ← particles !! i;
      let '(p, log) := Particle_applyForce_log i p gravity log in
      let '(p, log) := Particle_update_log i p log in
      let particles := <[i := p]> particles in
      if Particle_done p
      then Firework_update_loop_log i (delete i particles) (log ++ [splice i])
      else Firework_update_loop_log i particles log
  end.

Definition Firework_update_log (this : Firework num)
  : option (Firework num * list Write) :=
  '(ps, log) ← Firework_update_loop_log (length (particles this))
                                        (particles this) [];
  let done := if Nat.eqb (length ps) 0 then true else done this in
  Some (mkFirework ps (hue this) done, log).

End Order.

(** ** Vocabulary of the properties *)

Section Vocabulary.

Context {num : Type} `{Number num} `{Colour num}.
Local Open Scope num_scope.

(** What [Firework.update] does to one particle before it tests [done()]. *)
Definition Particle_step (p : Particle num) : Particle num :=
  Particle_update (Particle_applyForce p gravity).

Definition kept (p : Particle num) : Prop := Particle_done p = false.

#[export] Instance kept_dec (p : Particle num) : Decision (kept p) :=
  bool_eq_dec _ _.

Definition particles_updated (ps : list (Particle num)) : list (Particle num) :=
  filter kept (map Particle_step ps).

(** The writes of [Firework.update] for the particle [p] at index [i]:
    the gravity, the five assignments of [Particle.update] when the
    lifespan is positive, and the removal when the particle is then done. *)
Definition writes_at (i : nat) (p : Particle num) : list Write :=
  [acc_add i]
  ++ (if lifespan p >? lit 0
      then [vel_mult i; vel_add i; pos_add i; acc_mult i; lifespan_sub i]
      else [])
  ++ (if Particle_done (Particle_step p) then [splice i] else []).

(** The writes of [Firework.update] on the particles [ps]: those of each
    particle together, from the last particle to the first. *)
Definition writes (ps : list (Particle num)) : list Write :=
  concat (reverse (imap writes_at ps)).

(** The order of the specification: the gravity is added to every
    particle first; then every particle with a positive lifespan gets its
    velocity, its position, its lifespan and, last, its force set to zero. *)
Definition writes_claimed (ps : list (Particle num)) : list Write :=
  reverse (imap (λ i _, acc_add i) ps)
  ++ concat (reverse (imap (λ i p,
       if lifespan p >? lit 0
       then [vel_mult i; vel_add i; pos_add i; lifespan_sub i; acc_mult i]
       else []) ps)).

(** [Firework.update] never fails; this is its result. *)
Definition Firework_updated (b : Firework num) : Firework num :=
  let ps := particles_updated (particles b) in
  mkFirework ps (hue b) (if Nat.eqb (length ps) 0 then true else done b).

Arguments Firework_updated : simpl never.

Definition active (b : Firework num) : Prop := done b = false.

#[export] Instance active_dec (b : Firework num) : Decision (active b) :=
  bool_eq_dec _ _.

(** The random source after [du] calls of [p.random] and [dd] calls of
    [random2D]. *)
Definition advance (du dd : nat) (rs : RandomSource num) : RandomSource num :=
  mkRandomSource (uniform rs) (du + unext rs) (directions rs) (dd + dnext rs).

(** The [j]-th particle that a burst creates from the random source [rs]:
    it takes direction [j] and the values [2j] (speed) and [2j+1] (decay),
    counted from the cursors of [rs]. *)
Definition exploded (x y hue : num) (rs : RandomSource num) (j : nat)
  : Particle num :=
  mkParticle (createVector x y)
    (Vector_mult (directions rs (j + dnext rs))
       (uniform rs (2 * j + unext rs)%nat * (lit 22 - lit 5) + lit 5))
    (createVector (lit 0) (lit 0))
    (p_color hue (lit 255) (lit 255))
    (lit 255)
    (uniform rs (S (2 * j) + unext rs)%nat * (lit 4 - lit 1.5) + lit 1.5).

(** [n] successive calls of [Firework.update]. *)
Fixpoint Firework_updates (n : nat) (b : Firework num) : option (Firework num) :=
  match n with
  | O => Some b
  | S n => b ← Firework_update b; Firework_updates n b
  end.

(** A burst is never complete while it has particles. *)
Definition Firework_inv (b : Firework num) : Prop :=
  done b = true → particles b = [].

(** The bursts that the sketch can hold: created by a pinch, then updated
    any number of times. *)
Inductive Firework_reachable : Firework num → Prop :=
| reachable_new (x y : num) (rs : RandomSource num) :
    Firework_reachable (Firework_new x y rs).1
| reachable_update (b b' : Firework num) :
    Firework_reachable b → Firework_update b = Some b' →
    Firework_reachable b'.

(** A hand has the two landmarks that the callback reads. *)
Definition wellformed (hand : list (Coordinate num)) : Prop :=
  is_Some (hand !! THUMB_TIP) ∧ is_Some (hand !! INDEX_FINGER_TIP).

(** The classification of a hand in a frame: [distance < pinchThreshold]. *)
Definition isPinched (hand : list (Coordinate num)) : option bool :=
  thumbTip ← hand !! THUMB_TIP;
  indexTip ← hand !! INDEX_FINGER_TIP;
  Some (distance thumbTip indexTip <? pinchThreshold).

(** The stored state of a hand index, [false] when it was never seen. *)
Definition wasPinched (index : nat) (w : World num) : bool :=
  default false (handPinchStates w !! index).

(** The number of bursts that the callback pushes for one hand. *)
Definition callback_spawns (hand : list (Coordinate num)) (index : nat)
    (w : World num) : option nat :=
  '(w', _) ← landmarks_callback hand index w;
  Some (length (fireworks w') - length (fireworks w))%nat.

(** The number of bursts pushed for the hand at index [k] of a frame: the
    callback reaches it after the hands before it. *)
Definition frame_spawns (k : nat) (hands : list (list (Coordinate num)))
    (w : World num) : option nat :=
  '(w0, _) ← landmarks_forEach (take k hands) 0 w;
  hand ← hands !! k;
  callback_spawns hand k w0.

(** The spawn events of hand index [k] over successive detections. *)
Fixpoint trigger_trace (k : nat) (frames : list (list (list (Coordinate num))))
    (w : World num) : option (list nat) :=
  match frames with
  | [] => Some []
  | hands :: frames =>
      n ← frame_spawns k hands w;
      '(w, _) ← landmarks_forEach hands 0 w;
      ns ← trigger_trace k frames w;
      Some (n :: ns)
  end.

(** The distance between the two fingertips of a hand. *)
Definition hand_distance (hand : list (Coordinate num)) : option num :=
  thumbTip ← hand !! THUMB_TIP;
  indexTip ← hand !! INDEX_FINGER_TIP;
  Some (distance thumbTip indexTip).

(** The rising edges of a sequence of classifications, from the state
    [prev]: 1 where a [true] follows a [false], 0 elsewhere. *)
Fixpoint edges (prev : bool) (ps : list bool) : list nat :=
  match ps with
  | [] => []
  | p :: ps => (if p && negb prev then 1%nat else 0%nat) :: edges p ps
  end.

(** In a frame, the hand at index [k] is there with classification [p]
    (and every hand has its landmarks). *)
Definition frame_classified (k : nat) (hands : list (list (Coordinate num)))
    (p : bool) : Prop :=
  Forall wellformed hands ∧
  ∃ hand, hands !! k = Some hand ∧ isPinched hand = Some p.

(** Two random sources at the same place that give the same values from
    there up to the position [nu] of the values and the position [nd] of
    the directions; before and after that they may differ. *)
Definition RandomSource_agree_until (nu nd : nat)
    (rs1 rs2 : RandomSource num) : Prop :=
  unext rs1 = unext rs2 ∧ dnext rs1 = dnext rs2 ∧
  (∀ n, (unext rs1 ≤ n < nu)%nat → uniform rs1 n = uniform rs2 n) ∧
  (∀ n, (dnext rs1 ≤ n < nd)%nat → directions rs1 n = directions rs2 n).

(** Two states of the sketch that are equal but for their random sources,
    which agree up to [nu] and [nd]. *)
Definition World_agree_until (nu nd : nat) (w1 w2 : World num) : Prop :=
  fireworks w1 = fireworks w2 ∧
  handPinchStates w1 = handPinchStates w2 ∧
  lastVideoTime w1 = lastVideoTime w2 ∧
  width w1 = width w2 ∧ height w1 = height w2 ∧
  RandomSource_agree_until nu nd (rng w1) (rng w2).

(** Successive detections: [forEach] over the hands of each frame. *)
Fixpoint detections (frames : list (list (list (Coordinate num))))
    (w : World num) : option (World num) :=
  match frames with
  | [] => Some w
  | hands :: frames =>
      '(w, _) ← landmarks_forEach hands 0 w;
      detections frames w
  end.

(** A burst created at some point from the values of the source [rs0],
    read from some position. *)
Definition created_from (rs0 : RandomSource num) (b : Firework num) : Prop :=
  ∃ (x y : num) (rs : RandomSource num),
    uniform rs = uniform rs0 ∧ directions rs = directions rs0 ∧
    b = (Firework_new x y rs).1.

(** Two random sources give the same next 241 values and the same next 120
    directions. *)
Definition window_agree (rs1 rs2 : RandomSource num) : Prop :=
  (∀ i, (i < 241)%nat →
     uniform rs1 (i + unext rs1) = uniform rs2 (i + unext rs2)) ∧
  (∀ j, (j < 120)%nat →
     directions rs1 (j + dnext rs1) = directions rs2 (j + dnext rs2)).

End Vocabulary.

(** ** Sample inputs *)

Section Samples.

Context {num : Type} `{Number num} `{Colour num}.

(** A random source that always gives 0.6 and the direction (1, 0). *)
Definition sample_source : RandomSource num :=
  mkRandomSource (λ _, lit 0.6) 0 (λ _, createVector (lit 1) (lit 0)) 0.

Definition origin : Coordinate num := mkCoordinate (lit 0) (lit 0) (lit 0).

(** A hand of 21 landmarks, all at the origin but the thumb tip, which is
    at [(d, 0)]. *)
Definition sample_hand (d : Q) : list (Coordinate num) :=
  replicate 4 origin ++ [mkCoordinate (lit d) (lit 0) (lit 0)]
  ++ replicate 3 origin ++ [origin] ++ replicate 12 origin.

(** The sketch on a canvas of 640 by 480, before the first frame. *)
Definition sample_world : World num :=
  initial (lit 640) (lit 480) sample_source.

(** A frame of the video at time [t] with one hand. *)
Definition sample_frame (t d : Q) : Frame num :=
  mkFrame (Some (lit t)) (Some [sample_hand d]).

(** The first particle of a burst created at the origin. *)
Definition sample_particle : Particle num :=
  exploded (lit 0) (lit 0) (lit 0) sample_source 0.

(** The same values as [sample_source], given by another function. *)
Definition sample_source_again : RandomSource num :=
  mkRandomSource (λ n, if Nat.even n then lit 0.6 else lit 0.6) 0
                 (λ _, createVector (lit 1) (lit 0)) 0.

(** A random source that always gives 0.1, so that a burst gets the hue
    36, and the direction (1, 0). *)
Definition sample_source_tenth : RandomSource num :=
  mkRandomSource (λ _, lit 0.1) 0 (λ _, createVector (lit 1) (lit 0)) 0.

(** A random source that gives the values of [sample_source] to one burst,
    and other values and directions after that. *)
Definition sample_source_later : RandomSource num :=
  mkRandomSource (λ n, if (n <? 241)%nat then lit 0.6 else lit 0.9) 0
                 (λ n, if (n <? 120)%nat then createVector (lit 1) (lit 0)
                       else createVector (lit 0) (lit 1)) 0.

(** The values of [sample_source] with another direction, (0, 1). *)
Definition sample_source_turned : RandomSource num :=
  mkRandomSource (λ _, lit 0.6) 0 (λ _, createVector (lit 0) (lit 1)) 0.

(** The sketch with hand index 0 stored as pinched. *)
Definition sample_world_pinched : World num :=
  mkWorld [] {[0%nat := true]} (lit (-1)) (lit 640) (lit 480) sample_source.

End Samples.

(** ** Vocabulary of the motion, over the real numbers *)

Section Motion.

Context `{Colour R}.
Local Open Scope R_scope.

(** The values of a random source are in [0, 1) and its directions have
    length 1. *)
Definition source_ok (rs : RandomSource R) : Prop :=
  (∀ n, 0 <= uniform rs n < 1) ∧
  (∀ n, vx (directions rs n) * vx (directions rs n) +
        vy (directions rs n) * vy (directions rs n) = 1).

(** The velocity and the position after [k] steps with positive lifespan,
    from the velocity [v] and the position [c]: the drag 0.92 and the
    gravity 0.15 give the terminal velocity 0.15 / 0.08 = 1.875 downwards. *)
Definition vel_after (k : nat) (v : Vector R) : Vector R :=
  createVector (0.92 ^ k * vx v) (1.875 + 0.92 ^ k * (vy v - 1.875)).

Definition pos_after (k : nat) (c v : Vector R) : Vector R :=
  createVector
    (vx c + 11.5 * vx v * (1 - 0.92 ^ k))
    (vy c + 1.875 * INR k + 11.5 * (vy v - 1.875) * (1 - 0.92 ^ k)).

(** A particle as a burst holds it after an update. *)
Definition aged (p : Particle R) : Prop :=
  0 <= lifespan p <= 253.5 ∧ 1.5 <= decay p < 4.

(** A burst as the sketch holds it after a frame. *)
Definition burst_ok (b : Firework R) : Prop :=
  done b = false ∧ particles b ≠ [] ∧
  (length (particles b) ≤ 120)%nat ∧ Forall aged (particles b).

(** The state of the sketch after a frame: the values of the random source
    are in [0, 1) and every burst is as after an update. *)
Definition World_ok (w : World R) : Prop :=
  (∀ n, 0 <= uniform (rng w) n < 1) ∧ Forall burst_ok (fireworks w).

(** The colour of full saturation and brightness in the sector [k] of the
    six sectors of the hues, at the fraction [f] of the sector. *)
Definition sector_colour (k : Z) (f : R) : RGBA R :=
  match k with
  | 1%Z => mkRGBA (1 - f) 1 0 1
  | 2%Z => mkRGBA 0 1 f 1
  | 3%Z => mkRGBA 0 (1 - f) 1 1
  | 4%Z => mkRGBA f 0 1 1
  | 5%Z => mkRGBA 1 0 (1 - f) 1
  | _ => mkRGBA 1 f 0 1
  end.

(** Every stroke of a list of calls has an alpha between 0 and 253.5 / 255,
    the alpha of a particle that has been updated once. *)
Definition strokes_faded (calls : list (DrawCall R)) : Prop :=
  ∀ h s v a, Stroke h s v a ∈ calls → 0 <= a <= 253.5 / 255.

End Motion.

(** ** What the two loops compute *)

Section Loops.

Context {num : Type} `{Number num} `{Colour num}.
Local Open Scope num_scope.

Lemma Firework_update_loop_app (l1 l2 : list (Particle num)) :
  Firework_update_loop (length l1) (l1 ++ l2) =
  Firework_update_loop 0 (particles_updated l1 ++ l2).
Proof.
  revert l2. induction l1 as [|p l1 IH] using rev_ind; intros l2; [done|].
  rw length_app Nat.add_1_r -app_assoc /=.
  rw list_lookup_middle //=.
  rw insert_app_r_alt // Nat.sub_diag /=.
  unfold particles_updated.
  rw map_app list.filter_app /= -app_assoc.
  fold (Particle_step p).
  destruct (Particle_done (Particle_step p)) eqn:Hd.
  - rw delete_middle IH. unfold particles_updated.
    rw filter_cons_False; [unfold kept; congruence|]. done.
  - rw IH. unfold particles_updated.
    rw filter_cons_True //.
Qed.

Lemma Firework_update_loop_spec (ps : list (Particle num)) :
  Firework_update_loop (length ps) ps = Some (particles_updated ps).
Proof.
  rw -{2}(app_nil_r ps) Firework_update_loop_app app_nil_r //.
Qed.

Lemma Firework_update_spec (b : Firework num) :
  Firework_update b = Some (Firework_updated b).
Proof.
  unfold Firework_update. rw Firework_update_loop_spec //.
Qed.

Lemma writes_snoc (ps : list (Particle num)) (p : Particle num) :
  writes (ps ++ [p]) = writes_at (length ps) p ++ writes ps.
Proof.
  unfold writes. rw imap_app reverse_app. cbn [imap reverse rev_append app].
  rw Nat.add_0_r. reflexivity.
Qed.

Lemma Particle_update_log_spec i (p : Particle num) log :
  Particle_update_log i p log =
  (Particle_update p,
   log ++ (if lifespan p >? lit 0
           then [vel_mult i; vel_add i; pos_add i; acc_mult i; lifespan_sub i]
           else [])).
Proof.
  unfold Particle_update_log, Particle_update.
  destruct (lifespan p >? lit 0); cbn [pos vel acc color lifespan decay].
  - rw -!app_assoc. reflexivity.
  - rw app_nil_r //.
Qed.

Lemma Firework_update_loop_log_app (l1 l2 : list (Particle num)) log :
  Firework_update_loop_log (length l1) (l1 ++ l2) log =
  Some (particles_updated l1 ++ l2, log ++ writes l1).
Proof.
  revert l2 log. induction l1 as [|p l1 IH] using rev_ind; intros l2 log.
  - cbn. rw app_nil_r //.
  - rw length_app Nat.add_1_r -app_assoc.
    cbn [Firework_update_loop_log app].
    rw list_lookup_middle //. cbn [mbind option_bind].
    unfold Particle_applyForce_log. rw Particle_update_log_spec.
    fold (Particle_applyForce p gravity). fold (Particle_step p).
    cbn [lifespan Particle_applyForce].
    rw insert_app_r_alt // Nat.sub_diag. cbn [insert list_insert].
    rw writes_snoc. unfold writes_at, particles_updated.
    rw map_app list.filter_app -!app_assoc. cbn [map filter app].
    destruct (Particle_done (Particle_step p)) eqn:Hd.
    + rw delete_middle IH. unfold particles_updated.
      rw filter_cons_False; [unfold kept; congruence|].
      rw filter_nil. cbn [app]. rw -?app_assoc. cbn [app].
      rw -?app_assoc. reflexivity.
    + rw IH. unfold particles_updated.
      rw filter_cons_True // filter_nil. cbn [app]. rw -?app_assoc.
      cbn [app]. rw -?app_assoc ?app_nil_r. reflexivity.
Qed.

Lemma Firework_update_log_spec (b : Firework num) :
  Firework_update_log b = Some (Firework_updated b, writes (particles b)).
Proof.
  unfold Firework_update_log.
  rw -{2}(app_nil_r (particles b)) Firework_update_loop_log_app app_nil_r //.
Qed.

Lemma fireworks_loop_app (l1 l2 : list (Firework num)) :
  fireworks_loop (length l1) (l1 ++ l2) =
  Some (filter active (map Firework_updated l1) ++ l2,
        concat (map Firework_show (reverse (map Firework_updated l1)))).
Proof.
  revert l2. induction l1 as [|b l1 IH] using rev_ind; intros l2; [done|].
  rw length_app Nat.add_1_r -app_assoc /=.
  rw list_lookup_middle //= Firework_update_spec /=.
  rw insert_app_r_alt // Nat.sub_diag /=.
  rw map_app list.filter_app reverse_app /= -app_assoc.
  change (if length (particles_updated (particles b)) =? 0
          then true else done b) with (done (Firework_updated b)).
  destruct (done (Firework_updated b)) eqn:Hd.
  - rw delete_middle IH /=.
    rw filter_cons_False; [unfold active; congruence|]. done.
  - rw IH /=. rw filter_cons_True //.
Qed.

Lemma fireworks_loop_spec (fws : list (Firework num)) :
  fireworks_loop (length fws) fws =
  Some (filter active (map Firework_updated fws),
        concat (map Firework_show (reverse (map Firework_updated fws)))).
Proof.
  rw -{2}(app_nil_r fws) fireworks_loop_app app_nil_r //.
Qed.

Lemma Firework_updates_spec (n : nat) (b : Firework num) :
  Firework_updates n b = Some (Nat.iter n Firework_updated b).
Proof.
  revert b. induction n as [|n IH]; intros b; [done|].
  cbn [Firework_updates]. rw Firework_update_spec.
  cbn [mbind option_bind]. rw IH Nat.iter_succ_r //.
Qed.

Lemma particles_iter_updated (n : nat) (b : Firework num) :
  particles (Nat.iter n Firework_updated b) =
  Nat.iter n particles_updated (particles b).
Proof. induction n as [|n IH]; [done|]. rw !Nat.iter_succ -IH //. Qed.

Lemma hue_iter_updated (n : nat) (b : Firework num) :
  hue (Nat.iter n Firework_updated b) = hue b.
Proof. induction n as [|n IH]; [done|]. rw Nat.iter_succ -IH //. Qed.

(** When a particle that is due for removal stays so under further
    steps, [n] updates keep the particles that are not due after [n]
    steps. *)
Lemma filter_kept_step (ps : list (Particle num)) :
  (∀ q, ¬ kept q → ¬ kept (Particle_step q)) →
  particles_updated (filter kept ps) = particles_updated ps.
Proof.
  intros Hfrozen. unfold particles_updated.
  induction ps as [|p ps IH]; [done|].
  destruct (decide (kept p)) as [Hk|Hk].
  - rw filter_cons_True //. cbn [map]. rw !filter_cons IH //.
  - rw filter_cons_False //. cbn [map].
    rw (filter_cons_False _ (Particle_step p)); [by apply Hfrozen|]. done.
Qed.

Lemma particles_updated_iter (n : nat) (ps : list (Particle num)) :
  (∀ q, ¬ kept q → ¬ kept (Particle_step q)) →
  Forall kept ps →
  Nat.iter n particles_updated ps =
  filter kept (map (Nat.iter n Particle_step) ps).
Proof.
  intros Hfrozen Hps. induction n as [|n IH].
  - cbn [Nat.iter nat_rect]. rw map_id.
    induction Hps as [|p ps Hp _ IH]; [done|]. rw filter_cons_True // -IH //.
  - rw Nat.iter_succ IH filter_kept_step //.
    unfold particles_updated. rw map_map. done.
Qed.

End Loops.

(** ** Burst creation *)

Section Creation.

Context {num : Type} `{Number num} `{Colour num}.
Local Open Scope num_scope.

Lemma Particle_new_explosion (x y hue : num) (rs : RandomSource num) :
  Particle_new x y hue true rs = (exploded x y hue rs 0, advance 2 1 rs).
Proof. reflexivity. Qed.

Lemma exploded_advance (x y hue : num) (rs : RandomSource num) (j : nat) :
  exploded x y hue (advance 2 1 rs) j = exploded x y hue rs (S j).
Proof.
  unfold exploded, advance; simpl.
  replace (j + S (dnext rs))%nat with (S (j + dnext rs)) by lia.
  replace (j + (j + 0) + S (S (unext rs)))%nat
    with (S (j + S (j + 0) + unext rs)) by lia.
  replace (S (j + (j + 0) + S (S (unext rs))))%nat
    with (S (S (j + S (j + 0)) + unext rs)) by lia.
  reflexivity.
Qed.

Lemma explode_loop_spec (n : nat) (x y hue : num)
    (ps : list (Particle num)) (rs : RandomSource num) :
  explode_loop n x y hue ps rs =
  (ps ++ map (exploded x y hue rs) (seq 0 n), advance (2 * n) n rs).
Proof.
  revert ps rs. induction n as [|n IH]; intros ps rs.
  - rw app_nil_r. destruct rs; reflexivity.
  - cbn [explode_loop]. rw Particle_new_explosion IH -app_assoc.
    f_equal.
    + f_equal. cbn [seq map app]. f_equal.
      rw -seq_shift map_map. apply map_ext; intros j. apply exploded_advance.
    + unfold advance; simpl. f_equal; lia.
Qed.

Lemma Firework_new_spec (x y : num) (rs : RandomSource num) :
  Firework_new x y rs =
  let hue := (random (lit 0) (lit 360) rs).1 in
  (mkFirework (map (exploded x y hue (advance 1 0 rs)) (seq 0 120)) hue false,
   advance 241 120 rs).
Proof.
  unfold Firework_new, Firework_explode; cbn [random particles hue done].
  rw explode_loop_spec. cbn [app fst]. f_equal.
Qed.

End Creation.

(** ** The pinch trigger *)

Section Trigger.

Context {num : Type} `{Number num} `{Colour num}.
Local Open Scope num_scope.

Implicit Types (hand : list (Coordinate num)) (w : World num).
Implicit Types (hands : list (list (Coordinate num))).

Lemma landmarks_callback_spec hand index w thumbTip indexTip :
  hand !! THUMB_TIP = Some thumbTip →
  hand !! INDEX_FINGER_TIP = Some indexTip →
  let pinched := distance thumbTip indexTip <? pinchThreshold in
  let spawn := pinched && negb (wasPinched index w) in
  let created :=
    Firework_new ((x thumbTip + x indexTip) / lit 2 * width w)
                 ((y thumbTip + y indexTip) / lit 2 * height w) (rng w) in
  ∃ calls,
    landmarks_callback hand index w =
    Some (mkWorld (if spawn then fireworks w ++ [created.1] else fireworks w)
            (<[index := pinched]> (handPinchStates w))
            (lastVideoTime w) (width w) (height w)
            (if spawn then created.2 else rng w), calls).
Proof.
  intros Ht Hi pinched spawn created.
  unfold landmarks_callback. rw Ht Hi. cbn [mbind option_bind].
  fold pinched. fold (wasPinched index w). fold spawn. fold created.
  destruct spawn; [destruct created|]; eauto.
Qed.

Lemma wellformed_lookup hand :
  wellformed hand →
  ∃ thumbTip indexTip,
    hand !! THUMB_TIP = Some thumbTip ∧ hand !! INDEX_FINGER_TIP = Some indexTip.
Proof. intros [[t Ht] [i Hi]]. eauto. Qed.

Lemma isPinched_lookup hand thumbTip indexTip :
  hand !! THUMB_TIP = Some thumbTip →
  hand !! INDEX_FINGER_TIP = Some indexTip →
  isPinched hand = Some (distance thumbTip indexTip <? pinchThreshold).
Proof. intros Ht Hi. unfold isPinched. rw Ht Hi //. Qed.

(** The callback on a hand: it sets the state of [index] and leaves the
    rest; it pushes one burst when the hand is newly pinched. *)
Lemma landmarks_callback_effect hand index w :
  wellformed hand →
  ∃ w' calls pinched,
    landmarks_callback hand index w = Some (w', calls) ∧
    isPinched hand = Some pinched ∧
    handPinchStates w' = <[index := pinched]> (handPinchStates w) ∧
    lastVideoTime w' = lastVideoTime w ∧
    width w' = width w ∧ height w' = height w ∧
    length (fireworks w') =
      ((if pinched && negb (wasPinched index w) then 1 else 0)
       + length (fireworks w))%nat.
Proof.
  intros (t & i & Ht & Hi)%wellformed_lookup.
  destruct (landmarks_callback_spec hand index w t i Ht Hi) as [calls Hc].
  eexists _, calls, _. split; [exact Hc|]. split; [by apply isPinched_lookup|].
  cbn [handPinchStates lastVideoTime width height fireworks].
  repeat split; try reflexivity.
  destruct (_ && _); [rw length_app /=; lia | done].
Qed.

Lemma landmarks_forEach_app hands1 hands2 index w :
  landmarks_forEach (hands1 ++ hands2) index w =
  '(w1, calls1) ← landmarks_forEach hands1 index w;
  '(w2, calls2) ← landmarks_forEach hands2 (length hands1 + index) w1;
  Some (w2, calls1 ++ calls2).
Proof.
  revert index w. induction hands1 as [|hand hands1 IH]; intros index w.
  - cbn. destruct (landmarks_forEach hands2 index w) as [[w2 c2]|]; done.
  - cbn [app landmarks_forEach length].
    destruct (landmarks_callback hand index w) as [[w0 c0]|]; [|done].
    cbn. rw IH. replace (length hands1 + S index)%nat
      with (S (length hands1 + index)) by lia.
    destruct (landmarks_forEach hands1 (S index) w0) as [[w1 c1]|]; [|done].
    cbn. destruct (landmarks_forEach hands2 _ w1) as [[w2 c2]|]; [|done].
    cbn. rw app_assoc //.
Qed.

(** [forEach] over well-formed hands: every hand sets the state of its
    own index, the other indices keep theirs. *)
Lemma landmarks_forEach_effect hands index w :
  Forall wellformed hands →
  ∃ w' calls,
    landmarks_forEach hands index w = Some (w', calls) ∧
    (∀ i hand, hands !! i = Some hand →
       handPinchStates w' !! (index + i)%nat = isPinched hand) ∧
    (∀ j, (j < index ∨ index + length hands ≤ j)%nat →
       handPinchStates w' !! j = handPinchStates w !! j) ∧
    lastVideoTime w' = lastVideoTime w ∧
    width w' = width w ∧ height w' = height w.
Proof.
  intros Hwf. revert index w.
  induction Hwf as [|hand hands Hhand _ IH]; intros index w.
  - exists w, []. repeat split; done.
  - destruct (landmarks_callback_effect hand index w Hhand)
      as (w0 & c0 & pinched & Hc & Hp & Hst & Ht & Hw & Hh & _).
    destruct (IH (S index) w0) as (w' & c' & Hf & Hin & Hout & Ht' & Hw' & Hh').
    exists w', (c0 ++ c'). cbn [landmarks_forEach]. rw Hc /= Hf /=.
    split; [done|]. split; [|split].
    + intros [|i] hand' Hl.
      * injection Hl as <-. rw Hout; [lia|].
        rw Nat.add_0_r Hst lookup_insert_eq //.
      * replace (index + S i)%nat with (S index + i)%nat by lia.
        by apply Hin.
    + intros j Hj. cbn [length] in Hj. rw Hout; [lia|].
      rw Hst lookup_insert_ne //. lia.
    + rw Ht' Hw' Hh'. done.
Qed.

Lemma frame_spawns_spec k hands w p :
  frame_classified k hands p →
  frame_spawns k hands w =
  Some (if p && negb (wasPinched k w) then 1%nat else 0%nat).
Proof.
  intros [Hwf (hand & Hk & Hp)].
  assert (Hwf1 : Forall wellformed (take k hands)) by by apply Forall_take.
  destruct (landmarks_forEach_effect _ 0 w Hwf1)
    as (w0 & c0 & Hf & _ & Hout & _).
  unfold frame_spawns. rw Hf /= Hk /=.
  assert (Hhand : wellformed hand).
  { eapply (Forall_lookup_1 wellformed hands k hand); done. }
  destruct (landmarks_callback_effect hand k w0 Hhand)
    as (w1 & c1 & p' & Hc & Hp' & _ & _ & _ & _ & Hlen).
  unfold callback_spawns. rw Hc /= Hlen.
  assert (p' = p) as -> by congruence.
  assert (wasPinched k w0 = wasPinched k w) as ->.
  { unfold wasPinched. rw Hout //. right. rw length_take. lia. }
  f_equal. lia.
Qed.

Lemma trigger_trace_spec k frames ps w :
  Forall2 (frame_classified k) frames ps →
  trigger_trace k frames w = Some (edges (wasPinched k w) ps).
Proof.
  intros Hfs. revert w.
  induction Hfs as [|hands p frames ps Hc _ IH]; intros w; [done|].
  cbn [trigger_trace edges]. rw (frame_spawns_spec _ _ _ _ Hc) /=.
  destruct Hc as [Hwf (hand & Hk & Hp)].
  destruct (landmarks_forEach_effect _ 0 w Hwf)
    as (w' & c' & Hf & Hin & _).
  rw Hf /= IH.
  assert (wasPinched k w' = p) as ->.
  { unfold wasPinched. rw (Hin _ _ Hk) Hp //. }
  done.
Qed.

Lemma edges_held (n : nat) :
  edges false (replicate (S n) true) = 1%nat :: replicate n 0%nat.
Proof.
  cbn. f_equal. induction n as [|n IH]; [done|]. cbn. by f_equal.
Qed.

(** C3: the callback on a hand pushes a burst exactly when the distance
    between thumb tip and index tip, the square root of the sum of the
    squares of the differences of their [x] and of their [y], is below 0.05
    and the stored state of the hand index, false when absent, is false.
    The burst is then created
    at the midpoint of the two landmarks times the width and the height of
    the canvas, where all its particles start.  When the distance is not
    below 0.05, no burst is pushed, whatever the stored state. *)
Theorem pinch_spawns_on_rising_edge hand index w thumbTip indexTip :
  hand !! THUMB_TIP = Some thumbTip →
  hand !! INDEX_FINGER_TIP = Some indexTip →
  let dx := x thumbTip - x indexTip in
  let dy := y thumbTip - y indexTip in
  let pinched := sqrt (dx * dx + dy * dy) <? lit 0.05 in
  let previous := default false (handPinchStates w !! index) in
  let px := (x thumbTip + x indexTip) / lit 2 * width w in
  let py := (y thumbTip + y indexTip) / lit 2 * height w in
  let created := Firework_new px py (rng w) in
  ∃ w' calls,
    landmarks_callback hand index w = Some (w', calls) ∧
    (length (fireworks w') = S (length (fireworks w)) ↔
       pinched = true ∧ previous = false) ∧
    (pinched = true ∧ previous = false →
       fireworks w' = fireworks w ++ [created.1] ∧ rng w' = created.2 ∧
       Forall (λ p, pos p = createVector px py) (particles created.1)) ∧
    (¬ (pinched = true ∧ previous = false) →
       fireworks w' = fireworks w ∧ rng w' = rng w) ∧
    (pinched = false → fireworks w' = fireworks w).
Proof.
  intros Ht Hi.
  destruct (landmarks_callback_spec hand index w _ _ Ht Hi) as [calls Hc].
  cbv zeta in Hc |- *. unfold wasPinched, pinchThreshold, distance in Hc.
  cbv zeta in Hc.
  set (created := Firework_new _ _ _) in *.
  eexists _, calls. split; [exact Hc|]. cbn [fireworks rng].
  destruct (sqrt _ <? lit 0.05);
    destruct (default false (handPinchStates w !! index));
    cbn [andb negb]; rw ?length_app ?Nat.add_1_r.
  - repeat split; try done; try lia; try (by intros []).
  - repeat split; try done;
      try (match goal with Hn : ¬ _ |- _ => by exfalso; apply Hn end).
    subst created. rw Firework_new_spec. cbn [fst particles].
    apply Forall_map, Forall_forall. done.
  - repeat split; try done; try lia; try (by intros []).
  - repeat split; try done; try lia; try (by intros []).
Qed.

(** C5: after the detection of one frame, the stored state of every hand
    index reported in the frame is the classification of that hand in the
    frame (distance below 0.05), and the stored state of every other index
    is what it was. *)
Theorem detection_stores_classification
    (frame : Frame num) w (t : num) hands :
  currentTime frame = Some t →
  (t !== lastVideoTime w) = true →
  landmarks frame = Some hands →
  Forall wellformed hands →
  ∃ w' calls,
    detection frame w = Some (w', calls) ∧
    (∀ i hand thumbTip indexTip,
       hands !! i = Some hand →
       hand !! THUMB_TIP = Some thumbTip →
       hand !! INDEX_FINGER_TIP = Some indexTip →
       handPinchStates w' !! i = Some (distance thumbTip indexTip <? lit 0.05)) ∧
    (∀ j, (length hands ≤ j)%nat →
       handPinchStates w' !! j = handPinchStates w !! j).
Proof.
  intros Ht Hnew Hl Hwf. unfold detection. rw Ht Hnew Hl.
  destruct (landmarks_forEach_effect hands 0
              (mkWorld (fireworks w) (handPinchStates w) t
                       (width w) (height w) (rng w)) Hwf)
    as (w' & calls & Hf & Hin & Hout & _).
  exists w', calls. split; [done|]. split.
  - intros i hand thumbTip indexTip Hi Hthumb Hindex.
    rw (Hin i hand Hi). by apply isPinched_lookup.
  - intros j Hj. rw Hout //. right. lia.
Qed.

End Trigger.

(** ** Burst completion *)

Section Completion.

Context {num : Type} `{Number num} `{Colour num}.
Local Open Scope num_scope.

Implicit Types (b : Firework num) (fws : list (Firework num)).

Lemma Firework_new_particles (x y : num) (rs : RandomSource num) :
  length (particles (Firework_new x y rs).1) = 120%nat ∧
  done (Firework_new x y rs).1 = false.
Proof.
  rw Firework_new_spec. cbn [fst particles done].
  rw length_map length_seq //.
Qed.

Lemma Firework_updated_inv b : Firework_inv b → Firework_inv (Firework_updated b).
Proof.
  unfold Firework_inv, Firework_updated. cbn [done particles]. intros Hinv.
  destruct (particles_updated (particles b)) as [|p ps] eqn:Hps; [done|].
  cbn [length Nat.eqb]. intros Hd. rw (Hinv Hd) in Hps. done.
Qed.

Lemma Firework_reachable_inv b : Firework_reachable b → Firework_inv b.
Proof.
  induction 1 as [x0 y0 rs|b b' _ IH Hu].
  - intros Hd. destruct (Firework_new_particles x0 y0 rs). congruence.
  - rw Firework_update_spec in Hu. injection Hu as <-.
    by apply Firework_updated_inv.
Qed.

Lemma Firework_updated_done b :
  Firework_inv b →
  done (Firework_updated b) = true ↔ particles (Firework_updated b) = [].
Proof.
  intros Hinv. pose proof (Firework_updated_inv b Hinv) as Hinv'.
  split; [exact Hinv'|].
  unfold Firework_updated. cbn [particles done]. by intros ->.
Qed.

(** C2: after an update of a burst that the sketch holds, the burst is
    marked done if and only if it has no particle left; and the loop of
    [p.draw] over the bursts keeps exactly the updated bursts that still
    have particles, so that a burst that becomes empty is gone after the
    pass that marks it. *)
Theorem burst_done_iff_empty fws :
  Forall Firework_reachable fws →
  ∃ fws' calls,
    fireworks_loop (length fws) fws = Some (fws', calls) ∧
    (∀ b, b ∈ fws →
       ∃ b', Firework_update b = Some b' ∧
             (done b' = true ↔ particles b' = []) ∧
             (b' ∈ fws' ↔ particles b' ≠ [])) ∧
    (∀ b', b' ∈ fws' → ∃ b, b ∈ fws ∧ Firework_update b = Some b').
Proof.
  intros Hreach. eexists _, _. split; [apply fireworks_loop_spec|]. split.
  - intros b Hb. exists (Firework_updated b).
    assert (Hinv : Firework_inv b).
    { apply Firework_reachable_inv.
      exact (proj1 (list.Forall_forall _ _) Hreach b Hb). }
    pose proof (Firework_updated_done b Hinv) as Hdone.
    split; [apply Firework_update_spec|]. split; [exact Hdone|].
    rw list_elem_of_filter list_elem_of_fmap. unfold active. split.
    + intros [Hact _] Hemp. apply Hdone in Hemp. congruence.
    + intros Hne. split; [|by exists b].
      destruct (done (Firework_updated b)) eqn:Hd; [|done].
      exfalso. apply Hne. by apply Hdone.
  - intros b' [_ (b & -> & Hb)%list_elem_of_fmap]%list_elem_of_filter.
    exists b. split; [done|]. apply Firework_update_spec.
Qed.

(** Every burst that a run of the sketch holds is reachable. *)
Lemma landmarks_forEach_reachable (hands : list (list (Coordinate num)))
    index (w w' : World num) calls :
  Forall Firework_reachable (fireworks w) →
  landmarks_forEach hands index w = Some (w', calls) →
  Forall Firework_reachable (fireworks w').
Proof.
  revert index w calls.
  induction hands as [|hand hands IH]; intros index w calls Hw Hf.
  - by injection Hf as <- <-.
  - cbn [landmarks_forEach] in Hf.
    destruct (landmarks_callback hand index w) as [[w0 c0]|] eqn:Hc; [|done].
    cbn [mbind option_bind] in Hf.
    destruct (landmarks_forEach hands (S index) w0) as [[w1 c1]|] eqn:Hf1;
      [|done].
    injection Hf as <- <-. eapply IH; [|exact Hf1]. clear IH Hf1.
    unfold landmarks_callback in Hc.
    destruct (hand !! THUMB_TIP) as [thumbTip|]; [|done].
    destruct (hand !! INDEX_FINGER_TIP) as [indexTip|]; [|done].
    cbn [mbind option_bind] in Hc. destruct (_ && _).
    + match type of Hc with
      | context [Firework_new ?px ?py ?rs] =>
          pose proof (reachable_new px py rs) as Hnew;
          destruct (Firework_new px py rs) as [fw rs']
      end.
      injection Hc as <- _. cbn [fireworks].
      apply Forall_app. split; [done|]. by apply Forall_singleton.
    + by injection Hc as <- _.
Qed.

Lemma draw_reachable (frame : Frame num) (w w' : World num) calls :
  Forall Firework_reachable (fireworks w) →
  draw frame w = Some (w', calls) →
  Forall Firework_reachable (fireworks w').
Proof.
  intros Hw Hd. unfold draw in Hd.
  destruct (detection frame w) as [[w0 c0]|] eqn:Hdet; [|done].
  cbn [mbind option_bind] in Hd. rw fireworks_loop_spec in Hd.
  cbn [mbind option_bind] in Hd. injection Hd as <- _. cbn [fireworks].
  assert (Hw0 : Forall Firework_reachable (fireworks w0)).
  { unfold detection in Hdet. destruct (currentTime frame) as [t|].
    - destruct (t !== lastVideoTime w)%num.
      + destruct (landmarks frame) as [hands|].
        * eapply landmarks_forEach_reachable; [|exact Hdet]. exact Hw.
        * by injection Hdet as <- _.
      + by injection Hdet as <- _.
    - by injection Hdet as <- _. }
  apply list.Forall_forall.
  intros b' [_ (b & -> & Hb)%list_elem_of_fmap]%list_elem_of_filter.
  apply (reachable_update b); [|apply Firework_update_spec].
  exact (proj1 (list.Forall_forall _ _) Hw0 b Hb).
Qed.

Lemma run_reachable (frames : list (Frame num)) (w w' : World num) calls :
  Forall Firework_reachable (fireworks w) →
  run frames w = Some (w', calls) →
  Forall Firework_reachable (fireworks w').
Proof.
  revert w calls. induction frames as [|frame frames IH]; intros w calls Hw Hr.
  - by injection Hr as <- _.
  - cbn [run] in Hr.
    destruct (draw frame w) as [[w0 c0]|] eqn:Hd; [|done].
    cbn [mbind option_bind] in Hr.
    destruct (run frames w0) as [[w1 c1]|] eqn:Hr1; [|done].
    injection Hr as <- _. eapply IH; [|exact Hr1].
    by apply (draw_reachable frame w w0 c0).
Qed.

End Completion.

(** ** Determinism *)

Section Determinism.

Context {num : Type} `{Number num} `{Colour num}.
Local Open Scope num_scope.

Implicit Types (rs : RandomSource num) (w : World num).

Lemma World_agree_until_mk nu nd fws states (t wd ht : num) rs1 rs2 :
  RandomSource_agree_until nu nd rs1 rs2 →
  World_agree_until nu nd (mkWorld fws states t wd ht rs1)
                          (mkWorld fws states t wd ht rs2).
Proof. intros Hrs. repeat split; apply Hrs. Qed.

Lemma exploded_until (x y hue : num) rs1 rs2 nu nd j :
  RandomSource_agree_until nu nd rs1 rs2 →
  (241 + unext rs1 ≤ nu)%nat → (120 + dnext rs1 ≤ nd)%nat → (j < 120)%nat →
  exploded x y hue (advance 1 0 rs1) j = exploded x y hue (advance 1 0 rs2) j.
Proof.
  intros (Hu & Hd & Hus & Hds) Hnu Hnd Hj. unfold exploded, advance.
  cbn [uniform unext directions dnext]. rw -Hu -Hd.
  rw (Hds (j + (0 + dnext rs1))%nat); [lia|].
  rw (Hus (2 * j + (1 + unext rs1))%nat); [lia|].
  rw (Hus (S (2 * j) + (1 + unext rs1))%nat); [lia|]. reflexivity.
Qed.

Lemma Firework_new_cursors (x y : num) rs :
  unext (Firework_new x y rs).2 = (241 + unext rs)%nat ∧
  dnext (Firework_new x y rs).2 = (120 + dnext rs)%nat.
Proof. rw Firework_new_spec. split; reflexivity. Qed.

Lemma Firework_new_until (x y : num) rs1 rs2 nu nd :
  RandomSource_agree_until nu nd rs1 rs2 →
  (241 + unext rs1 ≤ nu)%nat → (120 + dnext rs1 ≤ nd)%nat →
  (Firework_new x y rs1).1 = (Firework_new x y rs2).1 ∧
  RandomSource_agree_until nu nd (Firework_new x y rs1).2
                                 (Firework_new x y rs2).2.
Proof.
  intros Hrs Hnu Hnd. rw !Firework_new_spec. cbn [fst snd random]. split.
  - pose proof Hrs as (Hu & Hd & Hus & Hds).
    rw -Hu (Hus (unext rs1)); [lia|]. f_equal.
    apply map_ext_in. intros j Hj%in_seq.
    apply (exploded_until _ _ _ _ _ nu nd); [done|done|done|lia].
  - destruct Hrs as (Hu & Hd & Hus & Hds). unfold advance.
    repeat split; cbn [uniform unext directions dnext].
    + by rw Hu.
    + by rw Hd.
    + intros n Hn. apply Hus. lia.
    + intros n Hn. apply Hds. lia.
Qed.

(* the cursors of the random source never go back *)
Lemma landmarks_callback_cursors (hand : list (Coordinate num)) index w w'
    calls :
  landmarks_callback hand index w = Some (w', calls) →
  (unext (rng w) ≤ unext (rng w'))%nat ∧ (dnext (rng w) ≤ dnext (rng w'))%nat.
Proof.
  unfold landmarks_callback.
  destruct (hand !! THUMB_TIP) as [thumbTip|]; [|done].
  destruct (hand !! INDEX_FINGER_TIP) as [indexTip|]; [|done].
  cbn [mbind option_bind].
  destruct (_ && _).
  - match goal with
    | |- context [Firework_new ?px ?py (rng w)] =>
        pose proof (Firework_new_cursors px py (rng w)) as [Hcu Hcd];
        destruct (Firework_new px py (rng w)) as [b r']
    end.
    cbn [snd] in Hcu, Hcd. intros Hc. apply (inj Some) in Hc.
    apply (f_equal fst) in Hc. cbn [fst] in Hc. subst w'. cbn [rng]. lia.
  - intros Hc. apply (inj Some) in Hc.
    apply (f_equal fst) in Hc. cbn [fst] in Hc. subst w'. cbn [rng]. lia.
Qed.

Lemma landmarks_forEach_cursors (hands : list (list (Coordinate num)))
    index w w' calls :
  landmarks_forEach hands index w = Some (w', calls) →
  (unext (rng w) ≤ unext (rng w'))%nat ∧ (dnext (rng w) ≤ dnext (rng w'))%nat.
Proof.
  revert index w w' calls.
  induction hands as [|hand hands IH]; intros index w w' calls Hf.
  - apply (inj Some) in Hf. apply (f_equal fst) in Hf. cbn in Hf. subst w'.
    lia.
  - cbn [landmarks_forEach] in Hf.
    destruct (landmarks_callback hand index w) as [[w0 c0]|] eqn:Hc; [|done].
    cbn [mbind option_bind] in Hf.
    destruct (landmarks_forEach hands (S index) w0) as [[w1 c1]|] eqn:Hr;
      [|done].
    cbn [mbind option_bind] in Hf. apply (inj Some) in Hf.
    apply (f_equal fst) in Hf. cbn [fst] in Hf. subst w1.
    pose proof (landmarks_callback_cursors _ _ _ _ _ Hc).
    pose proof (IH _ _ _ _ Hr). lia.
Qed.

Lemma detection_cursors (frame : Frame num) w w' calls :
  detection frame w = Some (w', calls) →
  (unext (rng w) ≤ unext (rng w'))%nat ∧ (dnext (rng w) ≤ dnext (rng w'))%nat.
Proof.
  unfold detection. intros Hd.
  assert (Hsame : Some (w, @nil (DrawCall num)) = Some (w', calls) →
                  (unext (rng w) ≤ unext (rng w'))%nat ∧
                  (dnext (rng w) ≤ dnext (rng w'))%nat).
  { intros Hs. apply (inj Some) in Hs. apply (f_equal fst) in Hs.
    cbn in Hs. subst w'. lia. }
  destruct (currentTime frame) as [t|]; [|by apply Hsame].
  destruct (t !== lastVideoTime w); [|by apply Hsame].
  destruct (landmarks frame) as [hands|].
  - apply landmarks_forEach_cursors in Hd. exact Hd.
  - apply (inj Some) in Hd. apply (f_equal fst) in Hd. cbn in Hd. subst w'.
    cbn [rng]. lia.
Qed.

Lemma draw_cursors (frame : Frame num) w w' calls :
  draw frame w = Some (w', calls) →
  (unext (rng w) ≤ unext (rng w'))%nat ∧ (dnext (rng w) ≤ dnext (rng w'))%nat.
Proof.
  unfold draw. intros Hdraw.
  destruct (detection frame w) as [[w0 c0]|] eqn:Hd; [|done].
  cbn [mbind option_bind] in Hdraw.
  destruct (fireworks_loop _ _) as [[fws c]|]; [|done].
  cbn [mbind option_bind] in Hdraw. apply (inj Some) in Hdraw.
  apply (f_equal fst) in Hdraw. cbn [fst] in Hdraw. subst w'. cbn [rng].
  by apply detection_cursors in Hd.
Qed.

Lemma run_cursors (frames : list (Frame num)) w w' calls :
  run frames w = Some (w', calls) →
  (unext (rng w) ≤ unext (rng w'))%nat ∧ (dnext (rng w) ≤ dnext (rng w'))%nat.
Proof.
  revert w w' calls.
  induction frames as [|frame frames IH]; intros w w' calls Hrun.
  - apply (inj Some) in Hrun. apply (f_equal fst) in Hrun. cbn in Hrun.
    subst w'. lia.
  - cbn [run] in Hrun.
    destruct (draw frame w) as [[w0 c0]|] eqn:Hd; [|done].
    cbn [mbind option_bind] in Hrun.
    destruct (run frames w0) as [[w1 c1]|] eqn:Hr; [|done].
    cbn [mbind option_bind] in Hrun. apply (inj Some) in Hrun.
    apply (f_equal fst) in Hrun. cbn [fst] in Hrun. subst w1.
    pose proof (draw_cursors _ _ _ _ Hd). pose proof (IH _ _ _ Hr). lia.
Qed.

(* a computation that ends below [nu] and [nd] gives the same output on a
   state that agrees up to there *)
Lemma landmarks_callback_until (hand : list (Coordinate num)) index nu nd
    w1 w2 w1' calls :
  landmarks_callback hand index w1 = Some (w1', calls) →
  (unext (rng w1') ≤ nu)%nat → (dnext (rng w1') ≤ nd)%nat →
  World_agree_until nu nd w1 w2 →
  ∃ w2', landmarks_callback hand index w2 = Some (w2', calls) ∧
         World_agree_until nu nd w1' w2'.
Proof.
  destruct w1 as [f1 s1 t1 wd1 ht1 r1], w2 as [f2 s2 t2 wd2 ht2 r2].
  intros Hc Hnu Hnd (Hf & Hs & Ht & Hw & Hh & Hr).
  cbn in Hf, Hs, Ht, Hw, Hh, Hr. subst f2 s2 t2 wd2 ht2.
  revert Hc. unfold landmarks_callback.
  destruct (hand !! THUMB_TIP) as [thumbTip|]; [|done].
  destruct (hand !! INDEX_FINGER_TIP) as [indexTip|]; [|done].
  cbn [mbind option_bind fireworks handPinchStates lastVideoTime width
       height rng].
  destruct (_ && _).
  - match goal with
    | |- context [Firework_new ?px ?py r1] =>
        pose proof (Firework_new_until px py r1 r2 nu nd Hr) as Hnew;
        pose proof (Firework_new_cursors px py r1) as [Hcu Hcd];
        destruct (Firework_new px py r1) as [b1 r1'];
        destruct (Firework_new px py r2) as [b2 r2']
    end.
    cbn [fst snd] in Hnew, Hcu, Hcd. intros Hc. apply (inj Some) in Hc.
    pose proof (f_equal fst Hc) as Hw1. pose proof (f_equal snd Hc) as Hc1.
    cbn [fst snd] in Hw1, Hc1. subst w1' calls. cbn [rng] in Hnu, Hnd.
    destruct Hnew as [<- Hr']; [lia|lia|].
    eexists. split; [reflexivity|]. by apply World_agree_until_mk.
  - intros Hc. apply (inj Some) in Hc.
    pose proof (f_equal fst Hc) as Hw1. pose proof (f_equal snd Hc) as Hc1.
    cbn [fst snd] in Hw1, Hc1. subst w1' calls.
    eexists. split; [reflexivity|]. by apply World_agree_until_mk.
Qed.

Lemma landmarks_forEach_until (hands : list (list (Coordinate num))) index
    nu nd w1 w2 w1' calls :
  landmarks_forEach hands index w1 = Some (w1', calls) →
  (unext (rng w1') ≤ nu)%nat → (dnext (rng w1') ≤ nd)%nat →
  World_agree_until nu nd w1 w2 →
  ∃ w2', landmarks_forEach hands index w2 = Some (w2', calls) ∧
         World_agree_until nu nd w1' w2'.
Proof.
  revert index w1 w2 w1' calls.
  induction hands as [|hand hands IH]; intros index w1 w2 w1' calls Hf Hnu Hnd Hw.
  - apply (inj Some) in Hf.
    pose proof (f_equal fst Hf) as Hw1. pose proof (f_equal snd Hf) as Hc1.
    cbn in Hw1, Hc1. subst w1' calls. exists w2. done.
  - cbn [landmarks_forEach] in Hf |- *.
    destruct (landmarks_callback hand index w1) as [[w0 c0]|] eqn:Hc; [|done].
    cbn [mbind option_bind] in Hf.
    destruct (landmarks_forEach hands (S index) w0) as [[w3 c3]|] eqn:Hr;
      [|done].
    cbn [mbind option_bind] in Hf. apply (inj Some) in Hf.
    pose proof (f_equal fst Hf) as Hw1. pose proof (f_equal snd Hf) as Hc1.
    cbn [fst snd] in Hw1, Hc1. subst w1' calls.
    pose proof (landmarks_forEach_cursors _ _ _ _ _ Hr) as [Hmu Hmd].
    destruct (landmarks_callback_until _ _ nu nd _ w2 _ _ Hc)
      as (w0' & Hc' & Hw0); [lia|lia|done|].
    destruct (IH _ _ w0' _ _ Hr Hnu Hnd Hw0) as (w3' & Hr' & Hw3).
    exists w3'. rw Hc'. cbn [mbind option_bind]. rw Hr'. done.
Qed.

Lemma detection_until (frame : Frame num) nu nd w1 w2 w1' calls :
  detection frame w1 = Some (w1', calls) →
  (unext (rng w1') ≤ nu)%nat → (dnext (rng w1') ≤ nd)%nat →
  World_agree_until nu nd w1 w2 →
  ∃ w2', detection frame w2 = Some (w2', calls) ∧
         World_agree_until nu nd w1' w2'.
Proof.
  intros Hd Hnu Hnd Hw. pose proof Hw as (Hf & Hs & Ht & Hwd & Hh & Hr).
  revert Hd. unfold detection.
  assert (Hsame : Some (w1, @nil (DrawCall num)) = Some (w1', calls) →
                  ∃ w2', Some (w2, @nil (DrawCall num)) = Some (w2', calls) ∧
                         World_agree_until nu nd w1' w2').
  { intros Hd. apply (inj Some) in Hd.
    pose proof (f_equal fst Hd) as Hw1. pose proof (f_equal snd Hd) as Hc1.
    cbn in Hw1, Hc1. subst w1' calls. exists w2. done. }
  destruct (currentTime frame) as [t|]; [|exact Hsame].
  rw -Ht. destruct (t !== lastVideoTime w1); [|exact Hsame].
  destruct (landmarks frame) as [hands|].
  - intros Hd. rw -Hf -Hs -Hwd -Hh.
    apply (landmarks_forEach_until _ _ nu nd _ _ _ _ Hd Hnu Hnd).
    by apply World_agree_until_mk.
  - intros Hd. apply (inj Some) in Hd.
    pose proof (f_equal fst Hd) as Hw1. pose proof (f_equal snd Hd) as Hc1.
    cbn [fst snd] in Hw1, Hc1. subst w1' calls. rw -Hf -Hs -Hwd -Hh.
    eexists. split; [reflexivity|]. by apply World_agree_until_mk.
Qed.

Lemma draw_until (frame : Frame num) nu nd w1 w2 w1' calls :
  draw frame w1 = Some (w1', calls) →
  (unext (rng w1') ≤ nu)%nat → (dnext (rng w1') ≤ nd)%nat →
  World_agree_until nu nd w1 w2 →
  ∃ w2', draw frame w2 = Some (w2', calls) ∧ World_agree_until nu nd w1' w2'.
Proof.
  unfold draw. intros Hdraw Hnu Hnd Hw.
  destruct (detection frame w1) as [[w0 c0]|] eqn:Hd; [|done].
  cbn [mbind option_bind] in Hdraw.
  destruct (fireworks_loop _ _) as [[fws c]|] eqn:Hl; [|done].
  cbn [mbind option_bind] in Hdraw. apply (inj Some) in Hdraw.
  pose proof (f_equal fst Hdraw) as Hw1. pose proof (f_equal snd Hdraw) as Hc1.
  cbn [fst snd] in Hw1, Hc1. subst w1' calls. cbn [rng] in Hnu, Hnd.
  destruct (detection_until _ nu nd _ w2 _ _ Hd Hnu Hnd Hw)
    as (w0' & Hd' & (Hf & Hs & Ht & Hwd & Hh & Hr)).
  rw Hd'. cbn [mbind option_bind]. rw -Hf Hl. cbn [mbind option_bind].
  rw -Hs -Ht -Hwd -Hh. eexists. split; [reflexivity|].
  by apply World_agree_until_mk.
Qed.

Lemma run_until (frames : list (Frame num)) nu nd w1 w2 w1' calls :
  run frames w1 = Some (w1', calls) →
  (unext (rng w1') ≤ nu)%nat → (dnext (rng w1') ≤ nd)%nat →
  World_agree_until nu nd w1 w2 →
  ∃ w2', run frames w2 = Some (w2', calls) ∧ World_agree_until nu nd w1' w2'.
Proof.
  revert w1 w2 w1' calls.
  induction frames as [|frame frames IH]; intros w1 w2 w1' calls Hrun Hnu Hnd Hw.
  - apply (inj Some) in Hrun.
    pose proof (f_equal fst Hrun) as Hw1. pose proof (f_equal snd Hrun) as Hc1.
    cbn in Hw1, Hc1. subst w1' calls. exists w2. done.
  - cbn [run] in Hrun |- *.
    destruct (draw frame w1) as [[w0 c0]|] eqn:Hd; [|done].
    cbn [mbind option_bind] in Hrun.
    destruct (run frames w0) as [[w3 c3]|] eqn:Hr; [|done].
    cbn [mbind option_bind] in Hrun. apply (inj Some) in Hrun.
    pose proof (f_equal fst Hrun) as Hw1. pose proof (f_equal snd Hrun) as Hc1.
    cbn [fst snd] in Hw1, Hc1. subst w1' calls.
    pose proof (run_cursors _ _ _ _ Hr) as [Hmu Hmd].
    destruct (draw_until _ nu nd _ w2 _ _ Hd) as (w0' & Hd' & Hw0);
      [lia|lia|done|].
    destruct (IH _ w0' _ _ Hr Hnu Hnd Hw0) as (w3' & Hr' & Hw3).
    exists w3'. rw Hd'. cbn [mbind option_bind]. rw Hr'. done.
Qed.

(* the first [k] frames of a run that succeeds *)
Lemma run_take (frames : list (Frame num)) w w' calls k :
  run frames w = Some (w', calls) →
  ∃ v, run (take k frames) w = Some (v, take k calls) ∧
       (unext (rng v) ≤ unext (rng w'))%nat ∧
       (dnext (rng v) ≤ dnext (rng w'))%nat.
Proof.
  revert w w' calls k.
  induction frames as [|frame frames IH]; intros w w' calls k Hrun.
  - apply (inj Some) in Hrun.
    pose proof (f_equal fst Hrun) as Hw1. pose proof (f_equal snd Hrun) as Hc1.
    cbn in Hw1, Hc1. subst w' calls. exists w. destruct k; done.
  - destruct k as [|k].
    + exists w. split; [done|]. by apply run_cursors in Hrun.
    + cbn [run take] in Hrun |- *.
      destruct (draw frame w) as [[w0 c0]|] eqn:Hd; [|done].
      cbn [mbind option_bind] in Hrun.
      destruct (run frames w0) as [[w3 c3]|] eqn:Hr; [|done].
      cbn [mbind option_bind] in Hrun. apply (inj Some) in Hrun.
      pose proof (f_equal fst Hrun) as Hw1.
      pose proof (f_equal snd Hrun) as Hc1.
      cbn [fst snd] in Hw1, Hc1. subst w' calls.
      destruct (IH _ _ _ k Hr) as (v & Hv & Hle).
      exists v. cbn [mbind option_bind take]. rw Hv. done.
Qed.

(** C9: the sketch reads its random source only through the values and
    the directions that it draws.  When a run over some frames succeeds,
    a second run over the same frames, from a state that is equal but for
    its random source, succeeds as well if its source is at the same place
    and gives the same values and directions as far as the first run
    draws them, whatever it gives elsewhere; after every number of frames
    the two runs have issued the same calls in each frame and hold the same
    bursts, particles and hand states. *)
Theorem run_determined_by_draws (frames : list (Frame num)) w1 w2 w1' calls :
  run frames w1 = Some (w1', calls) →
  World_agree_until (unext (rng w1')) (dnext (rng w1')) w1 w2 →
  ∀ k, ∃ v1 v2,
    run (take k frames) w1 = Some (v1, take k calls) ∧
    run (take k frames) w2 = Some (v2, take k calls) ∧
    fireworks v1 = fireworks v2 ∧
    handPinchStates v1 = handPinchStates v2 ∧
    lastVideoTime v1 = lastVideoTime v2 ∧
    unext (rng v1) = unext (rng v2) ∧ dnext (rng v1) = dnext (rng v2).
Proof.
  intros Hrun Hw k.
  destruct (run_take frames w1 w1' calls k Hrun) as (v1 & Hv1 & Hnu & Hnd).
  destruct (run_until _ _ _ _ w2 _ _ Hv1 Hnu Hnd Hw)
    as (v2 & Hv2 & (Hf & Hs & Ht & _ & _ & Hu & Hd & _)).
  exists v1, v2. done.
Qed.

End Determinism.

(** ** Arithmetic properties, over the real numbers *)

Section Reals.

Context `{Colour R}.
Local Open Scope R_scope.

Implicit Types (p q : Particle R) (b : Firework R) (rs : RandomSource R).

Ltac real_ops := cbn [lit add sub mul div ltb eqb sqrt R_Number] in *.
Ltac real_lits := unfold Q2R in *; cbn [Qnum Qden] in *.

Lemma Rltb_true (a c : R) : Rltb a c = true ↔ a < c.
Proof. unfold Rltb. destruct (Rlt_dec a c); split; intros; (lra || done). Qed.

Lemma Rltb_false (a c : R) : Rltb a c = false ↔ c <= a.
Proof. unfold Rltb. destruct (Rlt_dec a c); split; intros; (lra || done). Qed.

Lemma Vector_eq (v v' : Vector R) : vx v = vx v' → vy v = vy v' → v = v'.
Proof. destruct v, v'; cbn; intros -> ->; reflexivity. Qed.

Lemma Particle_done_true q : Particle_done q = true ↔ lifespan q < 0.
Proof. unfold Particle_done. real_ops. rw Rltb_true. real_lits. lra. Qed.

Lemma kept_nonneg q : kept q ↔ 0 <= lifespan q.
Proof.
  unfold kept, Particle_done. real_ops. rw Rltb_false. real_lits. lra.
Qed.

(** One step of a particle whose lifespan is positive, and of one whose
    lifespan is not. *)
Lemma Particle_step_positive p :
  0 < lifespan p →
  Particle_step p =
  let a := Vector_add (acc p) (createVector 0 0.15) in
  let v := Vector_add (Vector_mult (vel p) 0.92) a in
  mkParticle (Vector_add (pos p) v) v (createVector 0 0) (color p)
             (lifespan p - decay p) (decay p).
Proof.
  intros Hpos. unfold Particle_step, Particle_update, Particle_applyForce.
  cbn [lifespan pos vel acc color decay].
  assert (ltb (lit 0) (lifespan p) = true) as ->.
  { real_ops. apply Rltb_true. real_lits. lra. }
  cbv zeta. unfold gravity, Vector_add, Vector_mult. cbn [vx vy]. real_ops.
  f_equal; try apply Vector_eq; cbn [vx vy]; real_lits; lra.
Qed.

Lemma Particle_step_frozen p :
  lifespan p <= 0 →
  Particle_step p =
  mkParticle (pos p) (vel p) (Vector_add (acc p) (createVector 0 0.15))
             (color p) (lifespan p) (decay p).
Proof.
  intros Hle. unfold Particle_step, Particle_update, Particle_applyForce.
  cbn [lifespan pos vel acc color decay].
  assert (ltb (lit 0) (lifespan p) = false) as ->.
  { real_ops. apply Rltb_false. real_lits. lra. }
  unfold gravity, Vector_add. cbn [vx vy]. real_ops.
  f_equal; try apply Vector_eq; cbn [vx vy]; real_lits; lra.
Qed.

Lemma Particle_step_cases p :
  (0 < lifespan p ∧ lifespan (Particle_step p) = lifespan p - decay p ∨
   lifespan p <= 0 ∧ lifespan (Particle_step p) = lifespan p) ∧
  decay (Particle_step p) = decay p ∧
  color (Particle_step p) = color p.
Proof.
  destruct (Rlt_dec 0 (lifespan p)) as [Hpos|Hle].
  - rw Particle_step_positive //. cbn. auto.
  - rw Particle_step_frozen; [lra|]. cbn. split; [right; split; [lra|done]|done].
Qed.

Lemma decay_iter n p : decay (Nat.iter n Particle_step p) = decay p.
Proof.
  induction n as [|n IH]; [done|]. rw Nat.iter_succ.
  destruct (Particle_step_cases (Nat.iter n Particle_step p)) as (_ & -> & _).
  done.
Qed.

Lemma frozen_once_negative q : ¬ kept q → ¬ kept (Particle_step q).
Proof.
  rw !kept_nonneg. intros Hneg.
  destruct (Particle_step_cases q) as ([[Hpos _]|[_ ->]] & _); lra.
Qed.

Lemma alive_until n p :
  0 <= lifespan (Nat.iter n Particle_step p) ↔
  ∀ k, (k ≤ n)%nat → 0 <= lifespan (Nat.iter k Particle_step p).
Proof.
  split; [|by intros Hall; apply Hall].
  induction n as [|n IH]; intros Hn k Hk.
  - by replace k with 0%nat by lia.
  - destruct (decide (k = S n)) as [->|Hne]; [done|].
    apply IH; [|lia]. apply kept_nonneg.
    destruct (decide (kept (Nat.iter n Particle_step p))) as [Hkept|Hgone];
      [done|].
    apply frozen_once_negative in Hgone. rw -Nat.iter_succ in Hgone.
    exfalso. apply Hgone, kept_nonneg, Hn.
Qed.

(** What the random source gives to the particles of a burst. *)
Lemma exploded_ranges (x y hue : R) rs j :
  (∀ n, 0 <= uniform rs n < 1) →
  ∃ dir speed,
    vel (exploded x y hue rs j) = Vector_mult dir speed ∧
    dir = directions rs (j + dnext rs) ∧
    5 <= speed < 22 ∧
    1.5 <= decay (exploded x y hue rs j) < 4.
Proof.
  intros Hu. unfold exploded. cbn [vel decay]. eexists _, _.
  split; [reflexivity|]. split; [reflexivity|]. real_ops. real_lits.
  pose proof (Hu (2 * j + unext rs)%nat).
  pose proof (Hu (S (2 * j) + unext rs)%nat).
  split; nra.
Qed.

Lemma Firework_new_particle (x y : R) rs p :
  p ∈ particles (Firework_new x y rs).1 →
  ∃ j, p = exploded x y (hue (Firework_new x y rs).1) (advance 1 0 rs) j.
Proof.
  rw Firework_new_spec. cbn [fst particles hue].
  intros (j & -> & _)%list_elem_of_fmap. by exists j.
Qed.

Lemma Firework_new_kept (x y : R) rs :
  Forall kept (particles (Firework_new x y rs).1).
Proof.
  apply list.Forall_forall. intros p [j ->]%Firework_new_particle.
  apply kept_nonneg. unfold exploded. cbn [lifespan]. real_ops. real_lits. lra.
Qed.

(** C1: for the particles of a burst created from a random source with
    values in [0, 1): while the lifespan of a particle is positive, a step
    makes it strictly smaller; after [n] updates the burst holds exactly the
    particles whose lifespan after [n] steps is not below 0; a lifespan is
    not below 0 after [n] steps exactly when it was not below 0 after any
    earlier step, so a particle is removed by the first update that leaves
    its lifespan below 0, not before and not later. *)
Theorem lifespan_decreases_until_removal (x y : R) rs :
  (∀ n, 0 <= uniform rs n < 1) →
  let b0 := (Firework_new x y rs).1 in
  (∀ p n, p ∈ particles b0 →
     let q := Nat.iter n Particle_step p in
     0 < lifespan q → lifespan (Particle_step q) < lifespan q) ∧
  (∀ n, ∃ bn,
     Firework_updates n b0 = Some bn ∧
     particles bn = filter kept (map (Nat.iter n Particle_step) (particles b0))) ∧
  (∀ q, kept q ↔ 0 <= lifespan q) ∧
  (∀ p n, 0 <= lifespan (Nat.iter n Particle_step p) ↔
          ∀ k, (k ≤ n)%nat → 0 <= lifespan (Nat.iter k Particle_step p)).
Proof.
  intros Hu b0. split; [|split; [|split]].
  - intros p n [j ->]%Firework_new_particle q Hpos.
    destruct (exploded_ranges x y (hue (Firework_new x y rs).1)
                (advance 1 0 rs) j Hu) as (_ & _ & _ & _ & _ & Hdecay).
    pose proof (decay_iter n (exploded x y (hue (Firework_new x y rs).1)
                                (advance 1 0 rs) j)) as Hd.
    fold q in Hd.
    destruct (Particle_step_cases q) as ([[_ ->]|[Hle _]] & _); lra.
  - intros n. exists (Nat.iter n Firework_updated b0).
    split; [apply Firework_updates_spec|].
    rw particles_iter_updated. apply particles_updated_iter.
    + apply frozen_once_negative.
    + apply Firework_new_kept.
  - apply kept_nonneg.
  - intros p n. apply alive_until.
Qed.

(** C7: an update of a burst never fails.  It visits the particles from
    the last to the first and makes all the writes of one particle before
    it goes on to the next: the gravity is added to the accumulated force;
    then, when the lifespan is positive, the velocity is multiplied by
    0.92, the force is added to the velocity, the velocity is added to the
    position, the force is set to zero and, after that, the decay is
    subtracted from the lifespan; then the particle is removed when its
    lifespan is below 0.  So a particle with a positive lifespan gets the
    velocity [0.92 vel + acc + (0, 0.15)], the position [pos] plus that
    velocity, no force and the lifespan [lifespan - decay]; any other
    particle only receives the gravity. *)
Theorem burst_update_integrates b :
  ∃ b' log,
    Firework_update_log b = Some (b', log) ∧
    Firework_update b = Some b' ∧
    log = concat (reverse (imap (λ i p,
            [acc_add i]
            ++ (if Rltb 0 (lifespan p)
                then [vel_mult i; vel_add i; pos_add i; acc_mult i;
                      lifespan_sub i]
                else [])
            ++ (if Rltb (lifespan (Particle_step p)) 0 then [splice i]
                else [])) (particles b))) ∧
    particles b' = filter kept (map Particle_step (particles b)) ∧
    (∀ q, kept q ↔ 0 <= lifespan q) ∧
    ∀ p,
      let q := Particle_step p in
      decay q = decay p ∧ color q = color p ∧
      (0 < lifespan p →
         vx (vel q) = vx (vel p) * 0.92 + vx (acc p) ∧
         vy (vel q) = vy (vel p) * 0.92 + (vy (acc p) + 0.15) ∧
         vx (pos q) = vx (pos p) + vx (vel q) ∧
         vy (pos q) = vy (pos p) + vy (vel q) ∧
         vx (acc q) = 0 ∧ vy (acc q) = 0 ∧
         lifespan q = lifespan p - decay p) ∧
      (lifespan p <= 0 →
         pos q = pos p ∧ vel q = vel p ∧
         vx (acc q) = vx (acc p) ∧ vy (acc q) = vy (acc p) + 0.15 ∧
         lifespan q = lifespan p).
Proof.
  exists (Firework_updated b), (writes (particles b)).
  split; [apply Firework_update_log_spec|].
  split; [apply Firework_update_spec|].
  split.
  { unfold writes. f_equal. f_equal. apply imap_ext. intros i p _.
    unfold writes_at, Particle_done. real_ops.
    replace (Q2R 0) with 0 by (real_lits; lra). reflexivity. }
  split; [done|]. split; [apply kept_nonneg|].
  intros p q. subst q.
  destruct (Particle_step_cases p) as (_ & Hdecay & Hcolor).
  split; [exact Hdecay|]. split; [exact Hcolor|]. split.
  - intros Hpos. rw Particle_step_positive //.
    cbn [vx vy pos vel acc lifespan Vector_add Vector_mult]. real_ops.
    repeat split; lra.
  - intros Hle. rw Particle_step_frozen //.
    cbn [vx vy pos vel acc lifespan Vector_add]. real_ops.
    repeat split; lra.
Qed.

Lemma frozen_at_zero_iter p n :
  lifespan p = 0 →
  Nat.iter n Particle_step p =
  mkParticle (pos p) (vel p)
    (createVector (vx (acc p)) (vy (acc p) + INR n * 0.15))
    (color p) 0 (decay p).
Proof.
  intros Hz. induction n as [|n IH].
  - cbn [Nat.iter nat_rect INR]. destruct p as [ps v [ax ay] c l d].
    cbn in Hz |- *. subst l. f_equal. apply Vector_eq; cbn; lra.
  - rw Nat.iter_succ IH Particle_step_frozen; [cbn; lra|].
    cbn [pos vel acc color lifespan decay]. f_equal.
    unfold Vector_add. cbn [vx vy]. real_ops. rw S_INR.
    apply Vector_eq; cbn [vx vy]; lra.
Qed.

Lemma zero_lifespan_stays n :
  ∀ p b, lifespan p = 0 → p ∈ particles b → done b = false →
  Nat.iter n Particle_step p ∈ particles (Nat.iter n Firework_updated b) ∧
  done (Nat.iter n Firework_updated b) = false.
Proof.
  induction n as [|n IH]; intros p b Hz Hin Hdone; [done|].
  rw !Nat.iter_succ_r.
  assert (Hstep : Particle_step p ∈ particles (Firework_updated b)).
  { unfold Firework_updated, particles_updated. cbn [particles].
    apply list_elem_of_filter. split.
    - apply kept_nonneg. rw Particle_step_frozen; [lra|]. cbn. lra.
    - apply list_elem_of_fmap. by exists p. }
  apply IH; [|done|].
  - rw Particle_step_frozen; [lra|]. done.
  - revert Hstep. unfold Firework_updated. cbn [particles done].
    destruct (particles_updated (particles b)); [|done].
    by intros ?%elem_of_nil.
Qed.

(** C10: a particle whose lifespan is exactly 0 keeps its position, its
    velocity and its lifespan under any number of steps, is never done, and
    so stays in its burst, which is never marked done; its accumulated force
    grows by the gravity at every step, beyond any bound. *)
Theorem zero_lifespan_lingers p :
  lifespan p = 0 →
  (∀ n, let q := Nat.iter n Particle_step p in
     pos q = pos p ∧ vel q = vel p ∧ lifespan q = 0 ∧
     Particle_done q = false ∧
     acc q = createVector (vx (acc p)) (vy (acc p) + INR n * 0.15)) ∧
  (∀ b n, p ∈ particles b → done b = false →
     ∃ bn, Firework_updates n b = Some bn ∧
           Nat.iter n Particle_step p ∈ particles bn ∧ done bn = false) ∧
  (∀ M, ∃ n, M < vy (acc (Nat.iter n Particle_step p))).
Proof.
  intros Hz. split; [|split].
  - intros n q. subst q. rw frozen_at_zero_iter //. cbn.
    repeat split; try done.
    change (kept (mkParticle (pos p) (vel p)
      (createVector (vx (acc p)) (vy (acc p) + INR n * 0.15))
      (color p) 0 (decay p))).
    apply kept_nonneg. cbn. lra.
  - intros b n Hin Hdone. exists (Nat.iter n Firework_updated b).
    split; [apply Firework_updates_spec|]. by apply zero_lifespan_stays.
  - intros M.
    destruct (INR_archimed 0.15 (M - vy (acc p)) ltac:(lra)) as [n Hn].
    exists n. rw frozen_at_zero_iter //. cbn. lra.
Qed.

(** C6: a burst created at a point from a random source with values in
    [0, 1) and directions of length 1 has 120 particles and is not done; its
    hue is the first value of the source scaled to [0, 360).  Its particle
    number [j] starts at the point with lifespan 255, no accumulated force
    and the colour [p.color(hue, 255, 255)] of the burst's hue; each
    component of its velocity is that of the [j]-th next direction of the
    source times a speed, the speed is the value after the hue and [2 j]
    further values scaled to [5, 22), so that the velocity has the length of
    the speed; its decay is the following value scaled to [1.5, 4). *)
Theorem burst_creation (x y : R) rs :
  (∀ n, 0 <= uniform rs n < 1) →
  (∀ n, vx (directions rs n) * vx (directions rs n) +
        vy (directions rs n) * vy (directions rs n) = 1) →
  let b := (Firework_new x y rs).1 in
  length (particles b) = 120%nat ∧ done b = false ∧
  hue b = uniform rs (unext rs) * 360 ∧ 0 <= hue b < 360 ∧
  ∀ j p, particles b !! j = Some p →
    let dir := directions rs (dnext rs + j) in
    let speed := uniform rs (unext rs + 1 + 2 * j) * 17 + 5 in
    lifespan p = 255 ∧
    vx (pos p) = x ∧ vy (pos p) = y ∧
    vx (acc p) = 0 ∧ vy (acc p) = 0 ∧
    color p = p_color (hue b) 255 255 ∧
    vx (vel p) = vx dir * speed ∧ vy (vel p) = vy dir * speed ∧
    vx (vel p) * vx (vel p) + vy (vel p) * vy (vel p) = speed * speed ∧
    5 <= speed < 22 ∧
    decay p = uniform rs (unext rs + 2 + 2 * j) * 2.5 + 1.5 ∧
    1.5 <= decay p < 4.
Proof.
  intros Hu Hdir b.
  destruct (Firework_new_particles x y rs) as [Hlen Hdone].
  assert (Hhue : hue b = uniform rs (unext rs) * 360).
  { subst b. rw Firework_new_spec. cbn [fst hue random]. real_ops. real_lits. lra. }
  assert (Hps : particles b =
                exploded x y (hue b) (advance 1 0 rs) <$> seq 0 120).
  { subst b. rw Firework_new_spec. reflexivity. }
  split; [done|]. split; [done|]. split; [done|]. split.
  { rw Hhue. pose proof (Hu (unext rs)). lra. }
  intros j p Hj. clearbody b. rw Hps in Hj.
  apply list_lookup_fmap_Some in Hj as (i & -> & Hi).
  apply lookup_seq in Hi as [-> Hlt]. cbn [Nat.add].
  set (dir := directions rs (dnext rs + j)).
  set (speed := uniform rs (unext rs + 1 + 2 * j) * 17 + 5).
  pose proof (Hu (unext rs + 1 + 2 * j)%nat) as Hs.
  pose proof (Hu (unext rs + 2 + 2 * j)%nat) as Hd.
  pose proof (Hdir (dnext rs + j)%nat) as Hunit. fold dir in Hunit.
  unfold exploded, advance.
  cbn [lifespan pos acc vel color decay vx vy Vector_mult
       uniform unext directions dnext].
  replace (j + (0 + dnext rs))%nat with (dnext rs + j)%nat by lia.
  replace (2 * j + (1 + unext rs))%nat with (unext rs + 1 + 2 * j)%nat by lia.
  replace (S (2 * j) + (1 + unext rs))%nat
    with (unext rs + 2 + 2 * j)%nat by lia.
  fold dir. real_ops. real_lits.
  assert (Hsp : uniform rs (unext rs + 1 + 2 * j) * (22 / 1 - 5 / 1) + 5 / 1
                = speed) by (subst speed; lra).
  rw Hsp.
  assert (Hdec : uniform rs (unext rs + 2 + 2 * j) * (4 / 1 - 15 / 10)
                 + 15 / 10
                 = uniform rs (unext rs + 2 + 2 * j) * 2.5 + 1.5) by lra.
  rw Hdec.
  repeat split; try lra; try (subst speed; lra).
  - f_equal; lra.
  - transitivity ((vx dir * vx dir + vy dir * vy dir) * (speed * speed));
      [ring|rw Hunit; ring].
Qed.

Lemma Firework_reachable_particles b :
  Firework_reachable b →
  ∀ p, p ∈ particles b →
    color p = p_color (hue b) (lit 255) (lit 255) ∧ 0 <= lifespan p.
Proof.
  induction 1 as [x0 y0 rs|b b' _ IH Hu].
  - intros p Hp. split.
    + apply Firework_new_particle in Hp as [j ->]. done.
    + apply kept_nonneg.
      exact (proj1 (list.Forall_forall _ _) (Firework_new_kept x0 y0 rs) p Hp).
  - rw Firework_update_spec in Hu. injection Hu as <-.
    unfold Firework_updated, particles_updated. cbn [particles hue].
    intros p' [Hkept (p & -> & Hp)%list_elem_of_fmap]%list_elem_of_filter.
    split; [|by apply kept_nonneg].
    destruct (Particle_step_cases p) as (_ & _ & ->). by apply IH.
Qed.

(* what [show] sends for a particle of a burst that the sketch holds, for
   any implementation of the colours *)
Lemma Particle_show_reachable b p :
  Firework_reachable b → p ∈ particles b →
  Particle_show p =
    [ColorModeHSB;
     StrokeWeight (if Rltb 200 (lifespan p) then 5 else 3);
     Stroke (p_hue (p_color (hue b) 255 255)) 255 255 (lifespan p / 255);
     Point (vx (pos p)) (vy (pos p))] ∧
  0 <= lifespan p.
Proof.
  intros Hreach Hp.
  destruct (Firework_reachable_particles b Hreach p Hp) as [Hcolor Hlife].
  split; [|done].
  unfold Particle_show. rw Hcolor. real_ops.
  assert (Q2R 255 = 255) as -> by (real_lits; lra).
  assert (Q2R 200 = 200) as -> by (real_lits; lra).
  assert (Q2R 5 = 5) as -> by (real_lits; lra).
  assert (Q2R 3 = 3) as -> by (real_lits; lra).
  done.
Qed.

Lemma hand_distance_classified (hand : list (Coordinate R)) (d : R) :
  hand_distance hand = Some d →
  wellformed hand ∧ isPinched hand = Some (Rltb d 0.05).
Proof.
  unfold hand_distance, wellformed, isPinched.
  destruct (hand !! THUMB_TIP) as [t|]; [|done].
  destruct (hand !! INDEX_FINGER_TIP) as [i|]; [|done].
  cbn [mbind option_bind]. intros [= <-]. split; [split; by eexists|].
  reflexivity.
Qed.

Lemma single_hand_classified (hand : list (Coordinate R)) (d : R) :
  hand_distance hand = Some d →
  frame_classified 0 [hand] (Rltb d 0.05).
Proof.
  intros [Hwf Hp]%hand_distance_classified. split; [by constructor|].
  by exists hand.
Qed.

(** C4: a hand index without stored state whose hand is at the distances
    0.08, 0.03, 0.03, 0.08 in four successive detections spawns no burst,
    one burst, none and none.  And a hand whose distance is below 0.05 in
    each of one or more successive detections, from a stored state that is
    false or absent, spawns one burst in the first of them and none
    later. *)
Theorem pinch_fires_once :
  (∀ (h1 h2 h3 h4 : list (Coordinate R)) (w : World R),
     hand_distance h1 = Some 0.08 → hand_distance h2 = Some 0.03 →
     hand_distance h3 = Some 0.03 → hand_distance h4 = Some 0.08 →
     handPinchStates w !! 0%nat = None →
     trigger_trace 0 [[h1]; [h2]; [h3]; [h4]] w = Some [0; 1; 0; 0]%nat) ∧
  (∀ (k : nat) (frames : list (list (list (Coordinate R)))) (w : World R),
     frames ≠ [] →
     default false (handPinchStates w !! k) = false →
     Forall (λ hands,
       Forall wellformed hands ∧
       ∃ hand d, hands !! k = Some hand ∧
                 hand_distance hand = Some d ∧ d < 0.05) frames →
     trigger_trace k frames w =
     Some (1%nat :: replicate (length frames - 1) 0%nat)).
Proof.
  split.
  - intros h1 h2 h3 h4 w H1 H2 H3 H4 Hw.
    rw (trigger_trace_spec 0 [[h1]; [h2]; [h3]; [h4]]
          [Rltb 0.08 0.05; Rltb 0.03 0.05; Rltb 0.03 0.05; Rltb 0.08 0.05]).
    { repeat (apply Forall2_cons; [by apply single_hand_classified|]).
      apply Forall2_nil. }
    unfold wasPinched. rw Hw.
    assert (Rltb 0.08 0.05 = false) as -> by (apply Rltb_false; lra).
    assert (Rltb 0.03 0.05 = true) as -> by (apply Rltb_true; lra).
    done.
  - intros k frames w Hne Hw Hframes.
    rw (trigger_trace_spec k frames (replicate (length frames) true)).
    { clear Hne. induction Hframes as [|hands frames Hhands _ IH];
        [constructor|].
      cbn [length replicate]. constructor; [|exact IH].
      destruct Hhands as [Hwf (hand & d & Hk & Hd & Hlt)].
      split; [done|]. exists hand. split; [done|].
      apply hand_distance_classified in Hd as [_ ->].
      by apply Rltb_true in Hlt as ->. }
    unfold wasPinched. rw Hw.
    destruct frames as [|hands frames]; [done|].
    cbn [length]. rw edges_held. replace (S (length frames) - 1)%nat
      with (length frames) by lia. done.
Qed.

(** While the lifespan stays positive it goes down by the decay at each
    step. *)
Lemma lifespan_linear p n :
  0 <= decay p →
  (n = 0%nat ∨ 0 < lifespan p - INR n * decay p + decay p) →
  lifespan (Nat.iter n Particle_step p) = lifespan p - INR n * decay p.
Proof.
  intros Hd. induction n as [|n IH]; intros Hn.
  - cbn [Nat.iter nat_rect INR]. lra.
  - destruct Hn as [Hn|Hn]; [done|]. rw S_INR in Hn.
    assert (Hprev : lifespan (Nat.iter n Particle_step p)
                    = lifespan p - INR n * decay p).
    { apply IH. right. lra. }
    rw Nat.iter_succ S_INR.
    pose proof (decay_iter n p) as Hdn.
    destruct (Particle_step_cases (Nat.iter n Particle_step p))
      as ([[_ ->]|[Hle _]] & _); lra.
Qed.

(** The lifespan of a particle can reach exactly 0: with the value 0.6 of
    the random source the decay is 3, and 85 steps take 255 to 0. *)
Lemma sample_particle_zero :
  lifespan (Nat.iter 85 Particle_step (sample_particle : Particle R)) = 0.
Proof.
  assert (Hdecay : decay (sample_particle : Particle R) = 3).
  { cbn. real_lits. lra. }
  assert (Hlife : lifespan (sample_particle : Particle R) = 255).
  { cbn. real_lits. lra. }
  assert (H85 : INR 85 = 85) by (rw INR_IZR_INZ; reflexivity).
  rw lifespan_linear; rw ?Hdecay ?Hlife ?H85; lra.
Qed.

Lemma sample_source_uniform n :
  0 <= uniform (sample_source : RandomSource R) n < 1.
Proof. cbn. real_lits. lra. Qed.

Lemma sample_hand_distance (d : Q) :
  0 <= Q2R d →
  hand_distance (sample_hand d : list (Coordinate R)) = Some (Q2R d).
Proof.
  intros Hd. unfold hand_distance, sample_hand. cbn [replicate app lookup
    list_lookup THUMB_TIP INDEX_FINGER_TIP mbind option_bind].
  unfold distance, origin. cbn [x y]. real_ops. f_equal.
  set (r := Q2R d) in *.
  replace ((r - Q2R 0) * (r - Q2R 0) + (Q2R 0 - Q2R 0) * (Q2R 0 - Q2R 0))
    with (r * r) by (unfold Q2R; cbn [Qnum Qden]; lra).
  by apply sqrt_square.
Qed.

End Reals.

(** ** The colours of p5 in exact arithmetic *)

Section P5Reals.

#[local] Existing Instance p5_Colour.
Local Open Scope R_scope.

Ltac real_ops :=
  cbn [lit add sub mul div ltb eqb sqrt R_Number
       floor max min R_Mathematics] in *.

Lemma Q2R_integer (n : Z) : Q2R (n # 1) = IZR n.
Proof. unfold Q2R; cbn [Qnum Qden]. lra. Qed.

Lemma Reqb_true (a c : R) : Reqb a c = true ↔ a = c.
Proof. unfold Reqb. destruct (Req_dec_T a c); split; intros; (lra || done). Qed.

Lemma Reqb_false (a c : R) : Reqb a c = false ↔ a ≠ c.
Proof. unfold Reqb. destruct (Req_dec_T a c); split; intros; (lra || done). Qed.

(* decide the comparisons of the goal that linear arithmetic settles *)
Ltac compare_R :=
  repeat match goal with
  | |- context [Rltb ?a ?c] =>
      first [ rewrite -> (proj2 (Rltb_true a c)) by lra
            | rewrite -> (proj2 (Rltb_false a c)) by lra ]
  | |- context [Reqb ?a ?c] =>
      first [ rewrite -> (proj2 (Reqb_true a c)) by lra
            | rewrite -> (proj2 (Reqb_false a c)) by (intros ?; lra) ]
  | |- context [Rmax ?a ?c] =>
      first [ rewrite -> (Rmax_left a c) by lra
            | rewrite -> (Rmax_right a c) by lra ]
  | |- context [Rmin ?a ?c] =>
      first [ rewrite -> (Rmin_left a c) by lra
            | rewrite -> (Rmin_right a c) by lra ]
  end.

Lemma constrain01_inside (t : R) : 0 <= t <= 1 → constrain01 t = t.
Proof.
  intros Ht. unfold constrain01. real_ops. rw !Q2R_integer. compare_R.
  reflexivity.
Qed.

Lemma constrain01_above (t : R) : 1 < t → constrain01 t = 1.
Proof.
  intros Ht. unfold constrain01. real_ops. rw !Q2R_integer. compare_R.
  reflexivity.
Qed.

Lemma RGBA_eq (c c' : RGBA R) :
  red c = red c' → green c = green c' → blue c = blue c' →
  alpha c = alpha c' → c = c'.
Proof. destruct c, c'; cbn; intros; subst; reflexivity. Qed.

Lemma hsbaToRGBA_sector (t : R) (k : Z) :
  (0 <= k <= 5)%Z → IZR k <= t * 6 < IZR k + 1 →
  hsbaToRGBA t 1 1 1 = sector_colour k (t * 6 - IZR k).
Proof.
  intros Hk Ht.
  assert (Hfloor : Int_part (t * 6) = k).
  { symmetry. apply Int_part_spec. lra. }
  unfold hsbaToRGBA. real_ops. rw !Q2R_integer Hfloor. clear Hfloor.
  assert (Hcases : (k = 0 ∨ k = 1 ∨ k = 2 ∨ k = 3 ∨ k = 4 ∨ k = 5)%Z) by lia.
  destruct Hcases as [E|[E|[E|[E|[E|E]]]]]; subst k;
    compare_R; apply RGBA_eq; cbn [red green blue alpha sector_colour]; lra.
Qed.

Lemma rgbaToHSBA_sector (k : Z) (f : R) :
  (0 <= k <= 5)%Z → 0 <= f < 1 →
  rgbaToHSBA_hue (sector_colour k f) = (IZR k + f) / 6.
Proof.
  intros Hk Hf.
  assert (Hcases : (k = 0 ∨ k = 1 ∨ k = 2 ∨ k = 3 ∨ k = 4 ∨ k = 5)%Z) by lia.
  destruct (Req_dec_T f 0) as [Hz|Hz];
  destruct Hcases as [E|[E|[E|[E|[E|E]]]]]; subst k;
    unfold rgbaToHSBA_hue; cbn [sector_colour red green blue];
    real_ops; rw !Q2R_integer; compare_R.
  all: try (subst f; compare_R).
  all: try (field_simplify; lra).
  all: cbn [orb]; field.
Qed.

(** In exact arithmetic the hue of [p.color(h, 255, 255)] is [h] when
    [0 <= h < 360]: saturation and brightness are cut down to their
    maximum 100, and the conversion to red, green and blue and back gives
    the hue again. *)
Lemma p5_hue_color (h : R) :
  0 <= h < 360 → p5_hue (p5_color h 255 255) = h.
Proof.
  intros Hh. unfold p5_hue, p5_color. real_ops. rw !Q2R_integer.
  rw (constrain01_inside (h / 360)); [lra|].
  rw (constrain01_above (255 / 100)); [lra|].
  rw (constrain01_inside 1); [lra|].
  set (t := h / 360).
  assert (Ht : 0 <= t * 6 < 6) by (subst t; lra).
  destruct (base_Int_part (t * 6)) as [Hlo Hhi].
  assert (Hk : (0 <= Int_part (t * 6) <= 5)%Z).
  { assert (H1 : IZR (-1) < IZR (Int_part (t * 6))) by lra.
    assert (H2 : IZR (Int_part (t * 6)) < IZR 6) by lra.
    apply lt_IZR in H1, H2. lia. }
  rw (hsbaToRGBA_sector t (Int_part (t * 6))) //; [lra|].
  rw rgbaToHSBA_sector //; [lra|]. subst t. lra.
Qed.

(** C8: with the colours of p5 in exact arithmetic, a particle of a burst
    that the sketch holds is drawn by one point at its position, with
    saturation and brightness 255, with alpha its lifespan (which is not
    below 0) divided by 255, so 1 at lifespan 255 and 0 at lifespan 0, and
    with stroke weight 5 when the lifespan is above 200 and 3 otherwise.
    The hue of the stroke is the one that [p.hue] reads back from the
    colour [p.color(hue, 255, 255)] of the burst; it is the hue of the
    burst when that is in [0, 360). *)
Theorem particle_show_call b p :
  Firework_reachable b → p ∈ particles b →
  ∃ size alpha,
    Particle_show p =
      [ColorModeHSB; StrokeWeight size;
       Stroke (p5_hue (p5_color (hue b) 255 255)) 255 255 alpha;
       Point (vx (pos p)) (vy (pos p))] ∧
    (0 <= hue b < 360 → p5_hue (p5_color (hue b) 255 255) = hue b) ∧
    0 <= lifespan p ∧ alpha = lifespan p / 255 ∧
    (lifespan p = 255 → alpha = 1) ∧ (lifespan p = 0 → alpha = 0) ∧
    (200 < lifespan p → size = 5) ∧ (lifespan p <= 200 → size = 3).
Proof.
  intros Hreach Hp.
  destruct (Particle_show_reachable b p Hreach Hp) as [Hshow Hlife].
  exists (if Rltb 200 (lifespan p) then 5 else 3), (lifespan p / 255).
  split; [exact Hshow|]. split; [apply p5_hue_color|].
  split; [done|]. split; [done|]. split; [|split; [|split]].
  - intros ->. lra.
  - intros ->. lra.
  - intros Hgt. by apply Rltb_true in Hgt as ->.
  - intros Hle. by apply Rltb_false in Hle as ->.
Qed.

End P5Reals.

(** ** The sketch on doubles *)

Section Doubles.

#[local] Existing Instance p5_Colour.

(** The scenario of the pinch trigger, computed on binary64 numbers. *)
Example doubles_pinch_scenario :
  trigger_trace 0
    [[sample_hand 0.08]; [sample_hand 0.03]; [sample_hand 0.03];
     [sample_hand 0.08]] (sample_world : World float)
  = Some [0; 1; 0; 0]%nat.
Proof. vm_compute. reflexivity. Qed.

(** Four frames of the sketch: the pinch of the second frame creates a
    burst of 120 particles, which three updates bring to lifespan 246. *)
Example doubles_four_frames :
  match run [sample_frame 1 0.08; sample_frame 2 0.03; sample_frame 3 0.03;
             sample_frame 4 0.08] (sample_world : World float) with
  | Some (w, calls) =>
      map (λ b, (length (particles b), done b,
                 head (map lifespan (particles b)))) (fireworks w) =
        [(120%nat, false, Some (lit 246))] ∧
      handPinchStates w !! 0%nat = Some false ∧
      map length calls = [8; 489; 489; 488]%nat
  | None => False
  end.
Proof. vm_compute. repeat split. Qed.

(** With decay 3 the lifespan of a particle is exactly 0 after 85 updates:
    the particles stay, and the burst is still not done 1000 updates later. *)
Example doubles_zero_lifespan :
  let b := (Firework_new (lit 0) (lit 0) (sample_source : RandomSource float)).1 in
  (λ b', (map lifespan (particles b'), done b')) <$> Firework_updates 85 b
    = Some (replicate 120 (lit 0), false) ∧
  (λ b', (map lifespan (particles b'), done b')) <$> Firework_updates 1085 b
    = Some (replicate 120 (lit 0), false).
Proof. vm_compute. split; reflexivity. Qed.

(** The draw calls of a fresh particle and of one whose lifespan is 0. *)
Example doubles_show :
  Particle_show (sample_particle : Particle float) =
    [ColorModeHSB; StrokeWeight (lit 5);
     Stroke (lit 0) (lit 255) (lit 255) (lit 1); Point (lit 0) (lit 0)] ∧
  take 3 (Particle_show (Nat.iter 85 Particle_step
                           (sample_particle : Particle float))) =
    [ColorModeHSB; StrokeWeight (lit 3);
     Stroke (lit 0) (lit 255) (lit 255) (lit 0)].
Proof. vm_compute. split; reflexivity. Qed.

(** The directions of [random2D] are an input besides the values of
    [p.random]: two sources with the same values and other directions give
    bursts of the same hue whose particles move differently. *)
Example doubles_directions_matter :
  let b1 := (Firework_new (lit 0) (lit 0)
               (sample_source : RandomSource float)).1 in
  let b2 := (Firework_new (lit 0) (lit 0)
               (sample_source_turned : RandomSource float)).1 in
  eqb (hue b1) (hue b2) = true ∧
  (λ p, (vx (vel p), vy (vel p))) <$> particles b1 !! 0%nat
    = Some (lit 15.2, lit 0) ∧
  (λ p, (vx (vel p), vy (vel p))) <$> particles b2 !! 0%nat
    = Some (lit 0, lit 15.2).
Proof. vm_compute. repeat split. Qed.

(** The writes of one update of a fresh burst: the last particle gets the
    gravity and its five assignments, the force set to zero before the
    lifespan, and only then the particle before it gets the gravity.  In
    the order of the specification the gravity of all particles comes
    first and the lifespan before the force, so the two orders differ. *)
Lemma burst_update_integrates_counterexample :
  let b := (Firework_new (lit 0) (lit 0)
              (sample_source : RandomSource float)).1 in
  (take 7 ∘ snd) <$> Firework_update_log b =
    Some [acc_add 119; vel_mult 119; vel_add 119; pos_add 119; acc_mult 119;
          lifespan_sub 119; acc_add 118] ∧
  take 7 (writes_claimed (particles b)) =
    [acc_add 119; acc_add 118; acc_add 117; acc_add 116; acc_add 115;
     acc_add 114; acc_add 113] ∧
  take 5 (drop 120 (writes_claimed (particles b))) =
    [vel_mult 119; vel_add 119; pos_add 119; lifespan_sub 119; acc_mult 119] ∧
  snd <$> Firework_update_log b ≠ Some (writes_claimed (particles b)).
Proof.
  intros b. split; [vm_compute; reflexivity|].
  split; [vm_compute; reflexivity|]. split; [vm_compute; reflexivity|].
  intros Heq. apply (f_equal (fmap (take 2))) in Heq.
  vm_compute in Heq. discriminate Heq.
Qed.

(** A burst of hue 36, updated once as in its first frame: its first
    particle is stroked with the hue 36.00000000000001, which the
    conversion of p5 to red, green and blue and back gives for 36 on
    binary64 numbers. *)
Lemma particle_show_call_counterexample :
  let b := (Firework_new (lit 0) (lit 0)
              (sample_source_tenth : RandomSource float)).1 in
  hue b = lit 36 ∧
  (∃ size alpha x y,
     (b' ← Firework_update b; p ← particles b' !! 0%nat;
      Some (hue b', lifespan p, Particle_show p)) =
     Some (lit 36, lit 253.25,
           [ColorModeHSB; StrokeWeight size;
            Stroke (lit 36.00000000000001) (lit 255) (lit 255) alpha;
            Point x y])) ∧
  eqb (lit 36.00000000000001) (lit 36 : float) = false ∧
  lit 36.00000000000001 ≠ (lit 36 : float).
Proof.
  intros b. split; [vm_compute; reflexivity|]. split.
  - eexists _, _, _, _. vm_compute. reflexivity.
  - split; [vm_compute; reflexivity|].
    intros Heq. apply (f_equal (λ v, eqb v (lit 36 : float))) in Heq.
    vm_compute in Heq. discriminate Heq.
Qed.

End Doubles.

(** ** The properties at the sample inputs *)

Section Instances.

#[local] Existing Instance p5_Colour.

Local Open Scope R_scope.

Lemma lifespan_decreases_until_removal_witness :
  (∀ n, 0 <= uniform (sample_source : RandomSource R) n < 1) ∧
  ∃ bn,
    Firework_updates 3 (Firework_new 0 0 sample_source).1 = Some bn ∧
    particles bn =
      filter kept (map (Nat.iter 3 Particle_step)
                       (particles (Firework_new 0 0 sample_source).1)).
Proof.
  split; [exact sample_source_uniform|].
  exact (proj1 (proj2 (lifespan_decreases_until_removal
                         0 0 sample_source sample_source_uniform)) 3%nat).
Defined.

Lemma burst_done_iff_empty_witness :
  Forall Firework_reachable
    [(Firework_new (lit 0) (lit 0) (sample_source : RandomSource float)).1] ∧
  ∃ fws' calls,
    fireworks_loop 1
      [(Firework_new (lit 0) (lit 0) (sample_source : RandomSource float)).1]
    = Some (fws', calls).
Proof.
  assert (Hreach : Forall Firework_reachable
    [(Firework_new (lit 0) (lit 0) (sample_source : RandomSource float)).1]).
  { apply Forall_cons; [apply reachable_new|apply Forall_nil]. }
  split; [exact Hreach|].
  destruct (burst_done_iff_empty _ Hreach) as (fws' & calls & Hloop & _).
  exists fws', calls. exact Hloop.
Defined.

Lemma pinch_spawns_on_rising_edge_witness :
  sample_hand 0.03 !! THUMB_TIP
    = Some (mkCoordinate (lit 0.03) (lit 0) (lit 0) : Coordinate float) ∧
  sample_hand 0.03 !! INDEX_FINGER_TIP = Some (origin : Coordinate float) ∧
  ∃ w' calls,
    landmarks_callback (sample_hand 0.03) 0 (sample_world : World float)
      = Some (w', calls) ∧
    length (fireworks w') = 1%nat.
Proof.
  split; [reflexivity|]. split; [reflexivity|].
  destruct (pinch_spawns_on_rising_edge (num := float)
              (sample_hand 0.03) 0 sample_world
              (mkCoordinate (lit 0.03) (lit 0) (lit 0)) origin
              eq_refl eq_refl) as (w' & calls & Hc & Hiff & _).
  exists w', calls. split; [exact Hc|].
  apply Hiff. split; reflexivity.
Defined.

Lemma pinch_fires_once_witness :
  hand_distance (sample_hand 0.08 : list (Coordinate R)) = Some 0.08 ∧
  hand_distance (sample_hand 0.03 : list (Coordinate R)) = Some 0.03 ∧
  trigger_trace 0
    [[sample_hand 0.08]; [sample_hand 0.03]; [sample_hand 0.03];
     [sample_hand 0.08]] (sample_world : World R)
  = Some [0; 1; 0; 0]%nat.
Proof.
  assert (H8 : hand_distance (sample_hand 0.08 : list (Coordinate R))
               = Some 0.08).
  { apply sample_hand_distance. unfold Q2R; cbn [Qnum Qden]; lra. }
  assert (H3 : hand_distance (sample_hand 0.03 : list (Coordinate R))
               = Some 0.03).
  { apply sample_hand_distance. unfold Q2R; cbn [Qnum Qden]; lra. }
  split; [exact H8|]. split; [exact H3|].
  exact (proj1 pinch_fires_once _ _ _ _ sample_world H8 H3 H3 H8 eq_refl).
Defined.

Lemma detection_stores_classification_witness :
  ∃ w' calls,
    detection (sample_frame 1 0.03) (sample_world : World float)
      = Some (w', calls) ∧
    handPinchStates w' !! 0%nat = Some true ∧
    handPinchStates w' !! 1%nat = None.
Proof.
  assert (Hwf : Forall wellformed [sample_hand 0.03 : list (Coordinate float)]).
  { apply Forall_cons; [|apply Forall_nil]. split; eexists; reflexivity. }
  assert (Hnew : (lit 1 !== lastVideoTime (sample_world : World float))%num
                 = true) by (vm_compute; reflexivity).
  destruct (detection_stores_classification (num := float)
              (sample_frame 1 0.03) sample_world (lit 1) [sample_hand 0.03]
              eq_refl Hnew eq_refl Hwf) as (w' & calls & Hd & Hin & Hout).
  exists w', calls. split; [exact Hd|]. split.
  - exact (Hin 0%nat (sample_hand 0.03)
             (mkCoordinate (lit 0.03) (lit 0) (lit 0)) origin
             eq_refl eq_refl eq_refl).
  - rewrite -> (Hout 1%nat (le_n 1)). reflexivity.
Defined.

Lemma burst_creation_witness :
  (∀ n, 0 <= uniform (sample_source : RandomSource R) n < 1) ∧
  length (particles (Firework_new 0 0 (sample_source : RandomSource R)).1)
    = 120%nat.
Proof.
  split; [exact sample_source_uniform|].
  refine (proj1 (burst_creation 0 0 sample_source sample_source_uniform _)).
  intros n. cbn. unfold Q2R; cbn [Qnum Qden]. lra.
Defined.

Lemma particle_show_call_witness :
  let b := (Firework_new 0 0 (sample_source : RandomSource R)).1 in
  let p := exploded 0 0 (hue b) (advance 1 0 sample_source) 0 in
  Firework_reachable b ∧ p ∈ particles b ∧
  ∃ size alpha,
    Particle_show p =
      [ColorModeHSB; StrokeWeight size; Stroke (hue b) 255 255 alpha;
       Point (vx (pos p)) (vy (pos p))].
Proof.
  intros b p.
  assert (Hp : p ∈ particles b).
  { subst p b. rewrite -> Firework_new_spec. cbn [fst particles hue].
    apply list_elem_of_fmap. exists 0%nat. split; [reflexivity|].
    apply elem_of_seq. lia. }
  assert (Hhue : 0 <= hue b < 360).
  { subst b. rewrite -> Firework_new_spec.
    cbn [fst hue random uniform unext sample_source lit add sub mul
         R_Number].
    unfold Q2R; cbn [Qnum Qden]. lra. }
  split; [apply reachable_new|]. split; [exact Hp|].
  destruct (particle_show_call b p (reachable_new 0 0 sample_source) Hp)
    as (size & alpha & Hshow & Hexact & _).
  exists size, alpha. rewrite <- (Hexact Hhue) at 1. exact Hshow.
Defined.

Lemma run_determined_by_draws_witness :
  let frames : list (Frame float) :=
    [sample_frame 1 0.03; sample_frame 2 0.08] in
  eqb (uniform (sample_source : RandomSource float) 241)
      (uniform sample_source_later 241) = false ∧
  ∃ v1 v2 calls,
    run frames (initial (lit 640) (lit 480) sample_source) = Some (v1, calls) ∧
    run frames (initial (lit 640) (lit 480) sample_source_later)
      = Some (v2, calls) ∧
    length (fireworks v1) = 1%nat ∧ fireworks v1 = fireworks v2.
Proof.
  intros frames.
  set (w1 := initial (lit 640) (lit 480) sample_source : World float).
  set (w2 := initial (lit 640) (lit 480) sample_source_later : World float).
  split; [vm_compute; reflexivity|].
  assert (Hcur : (λ r, (unext (rng r.1), dnext (rng r.1),
                        length (fireworks r.1), length r.2))
                   <$> run frames w1
                 = Some (241, 120, 1, 2)%nat) by (vm_compute; reflexivity).
  destruct (run frames w1) as [[w1' calls]|] eqn:Hrun; [|discriminate Hcur].
  apply (inj Some) in Hcur. cbn [fst snd] in Hcur.
  assert (Hu : unext (rng w1') = 241%nat) by congruence.
  assert (Hd : dnext (rng w1') = 120%nat) by congruence.
  assert (Hn : length (fireworks w1') = 1%nat) by congruence.
  assert (Hl : length calls = 2%nat) by congruence.
  assert (Hw : World_agree_until (unext (rng w1')) (dnext (rng w1')) w1 w2).
  { rewrite -> Hu, Hd. repeat split.
    - intros n [_ Hlt]. unfold w1, w2, initial, sample_source_later.
      cbn [rng uniform]. apply Nat.ltb_lt in Hlt. rewrite -> Hlt.
      reflexivity.
    - intros n [_ Hlt]. unfold w1, w2, initial, sample_source_later.
      cbn [rng directions]. apply Nat.ltb_lt in Hlt. rewrite -> Hlt.
      reflexivity. }
  destruct (run_determined_by_draws frames w1 w2 w1' calls Hrun Hw 2)
    as (v1 & v2 & Hv1 & Hv2 & Hf & _).
  rewrite -> (take_ge calls 2) in Hv1, Hv2 by lia.
  change (take 2 frames) with frames in Hv1, Hv2.
  exists v1, v2, calls. rewrite <- Hrun.
  split; [exact Hv1|]. split; [exact Hv2|]. split; [|exact Hf].
  assert (Hsame : w1' = v1) by congruence. rewrite <- Hsame. exact Hn.
Defined.

Lemma zero_lifespan_lingers_witness :
  lifespan (Nat.iter 85 Particle_step (sample_particle : Particle R)) = 0 ∧
  ∀ n, Particle_done (Nat.iter n Particle_step
         (Nat.iter 85 Particle_step (sample_particle : Particle R))) = false.
Proof.
  split; [exact sample_particle_zero|].
  intros n.
  exact (proj1 (proj2 (proj2 (proj2
    (proj1 (zero_lifespan_lingers _ sample_particle_zero) n))))).
Defined.

End Instances.

(** ** More on the pinch trigger *)

Section TriggerSequences.

Context {num : Type} `{Number num} `{Colour num}.
Local Open Scope num_scope.

Implicit Types (hand : list (Coordinate num)) (w : World num).
Implicit Types (hands : list (list (Coordinate num))).

Lemma edges_rate (ps : list bool) :
  (2 * sum_list (edges true ps) ≤ length ps)%nat ∧
  (2 * sum_list (edges false ps) ≤ length ps + 1)%nat.
Proof.
  induction ps as [|p ps [IHt IHf]]; [cbn; lia|].
  destruct p; cbn [edges andb negb length];
    repeat match goal with
    | |- context [sum_list (?a :: ?l)] =>
        change (sum_list (a :: l)) with (a + sum_list l)%nat
    end; lia.
Qed.

(** X1: over successive detections in which the hand at an index is
    present, the bursts it spawns are exactly the rising edges of its
    classifications, counted from the stored state: one burst in each
    detection where it is pinched and was not in the one before.  So a
    hand spawns at most one burst every two detections. *)
Theorem spawns_are_rising_edges k
    (frames : list (list (list (Coordinate num)))) (ps : list bool) w :
  Forall2 (frame_classified k) frames ps →
  ∃ ns,
    trigger_trace k frames w = Some ns ∧
    ns = edges (default false (handPinchStates w !! k)) ps ∧
    (2 * sum_list ns ≤ length frames + 1)%nat.
Proof.
  intros Hfs. eexists. split; [by apply trigger_trace_spec|].
  split; [reflexivity|].
  rw (list.Forall2_length _ _ _ Hfs). unfold wasPinched.
  destruct (edges_rate ps) as [Ht Hf].
  destruct (default false (handPinchStates w !! k)); lia.
Qed.

Lemma detections_absent k (absent : list (list (list (Coordinate num)))) w :
  Forall (λ hands, Forall wellformed hands ∧ (length hands ≤ k)%nat) absent →
  ∃ w', detections absent w = Some w' ∧
        handPinchStates w' !! k = handPinchStates w !! k.
Proof.
  intros Habs. revert w.
  induction Habs as [|hands absent [Hwf Hlen] _ IH]; intros w.
  - by exists w.
  - destruct (landmarks_forEach_effect hands 0 w Hwf)
      as (w0 & c0 & Hf & _ & Hout & _).
    destruct (IH w0) as (w' & Hd & Hk).
    exists w'. cbn [detections]. rw Hf. cbn [mbind option_bind].
    split; [exact Hd|]. rw Hk. apply Hout. right. lia.
Qed.

(** X2: the stored state of a hand index survives the frames in which the
    index is not reported.  When a hand shows up again at that index, it
    spawns a burst only if it is pinched and the state stored before the
    absence was not: a hand that left pinched and comes back pinched
    spawns nothing. *)
Theorem pinch_state_survives_absence k
    (absent : list (list (list (Coordinate num)))) hands (p : bool) w :
  Forall (λ hands, Forall wellformed hands ∧ (length hands ≤ k)%nat) absent →
  frame_classified k hands p →
  ∃ w',
    detections absent w = Some w' ∧
    handPinchStates w' !! k = handPinchStates w !! k ∧
    frame_spawns k hands w' =
      Some (if p && negb (default false (handPinchStates w !! k))
            then 1%nat else 0%nat).
Proof.
  intros Habs Hc. destruct (detections_absent k absent w Habs) as (w' & Hd & Hk).
  exists w'. split; [exact Hd|]. split; [exact Hk|].
  rw (frame_spawns_spec k hands w' p Hc). unfold wasPinched. rw Hk //.
Qed.

Lemma wellformed_length hand : wellformed hand ↔ (8 < length hand)%nat.
Proof.
  unfold wellformed, THUMB_TIP, INDEX_FINGER_TIP. split.
  - intros [_ Hi]. by apply lookup_lt_is_Some.
  - intros Hl. split; apply lookup_lt_is_Some; lia.
Qed.

Lemma landmarks_callback_fails hand index w :
  landmarks_callback hand index w = None ↔ (length hand ≤ 8)%nat.
Proof.
  split.
  - intros Hnone. destruct (decide (8 < length hand)%nat) as [Hl|Hl]; [|lia].
    apply wellformed_length in Hl.
    destruct (landmarks_callback_effect hand index w Hl) as (? & ? & ? & Hc & _).
    congruence.
  - intros Hl. unfold landmarks_callback.
    destruct (hand !! THUMB_TIP) as [t|] eqn:Ht; [|done].
    rw (lookup_ge_None_2 hand INDEX_FINGER_TIP); [unfold INDEX_FINGER_TIP; lia|].
    done.
Qed.

Lemma landmarks_forEach_fails hands index w :
  landmarks_forEach hands index w = None ↔
  Exists (λ hand, (length hand ≤ 8)%nat) hands.
Proof.
  revert index w. induction hands as [|hand hands IH]; intros index w.
  - split; [done|]. by intros ?%Exists_nil.
  - cbn [landmarks_forEach]. rw Exists_cons.
    destruct (landmarks_callback hand index w) as [[w0 c0]|] eqn:Hc.
    + cbn [mbind option_bind].
      destruct (landmarks_forEach hands (S index) w0) as [[w1 c1]|] eqn:Hf.
      * split; [done|]. intros [Hl|Hex].
        -- apply (landmarks_callback_fails hand index w) in Hl. congruence.
        -- apply (IH (S index) w0) in Hex. congruence.
      * split; [|done]. intros _. right. by apply (IH (S index) w0).
    + split; [|done]. intros _. left.
      by apply (landmarks_callback_fails hand index w).
Qed.

(** X5: a frame fails (the [TypeError] of reading a landmark that is not
    there) exactly when its detection runs, that is the video has a time
    different from the last one processed and landmarks are reported, and
    some reported hand has fewer than 9 landmarks.  The loop over the
    bursts never fails. *)
Theorem draw_fails_iff (frame : Frame num) w :
  (detection frame w = None ↔
   ∃ t hands,
     currentTime frame = Some t ∧ (t !== lastVideoTime w) = true ∧
     landmarks frame = Some hands ∧
     Exists (λ hand, (length hand ≤ 8)%nat) hands) ∧
  (draw frame w = None ↔ detection frame w = None).
Proof.
  split.
  - unfold detection. destruct (currentTime frame) as [t|].
    + destruct (t !== lastVideoTime w) eqn:Hnew.
      * destruct (landmarks frame) as [hands|].
        -- rw landmarks_forEach_fails. split.
           ++ intros Hex. by exists t, hands.
           ++ by intros (? & ? & [= <-] & _ & [= <-] & Hex).
        -- split; [done|]. by intros (? & ? & _ & _ & ? & _).
      * split; [done|]. intros (? & ? & [= <-] & ? & _). congruence.
    + split; [done|]. by intros (? & ? & ? & _).
  - unfold draw. destruct (detection frame w) as [[w0 c0]|]; [|done].
    cbn [mbind option_bind]. rw fireworks_loop_spec. done.
Qed.

Lemma Firework_new_source (x y : num) (rs : RandomSource num) :
  uniform (Firework_new x y rs).2 = uniform rs ∧
  directions (Firework_new x y rs).2 = directions rs.
Proof. rw Firework_new_spec. done. Qed.

Lemma landmarks_forEach_appends hands index w w' calls :
  landmarks_forEach hands index w = Some (w', calls) →
  ∃ news,
    fireworks w' = fireworks w ++ news ∧
    (length news ≤ length hands)%nat ∧
    Forall (created_from (rng w)) news ∧
    uniform (rng w') = uniform (rng w) ∧
    directions (rng w') = directions (rng w) ∧
    width w' = width w ∧ height w' = height w ∧
    lastVideoTime w' = lastVideoTime w.
Proof.
  revert index w calls.
  induction hands as [|hand hands IH]; intros index w calls Hf.
  - injection Hf as <- _. exists []. rw app_nil_r. repeat split; done.
  - cbn [landmarks_forEach] in Hf.
    destruct (landmarks_callback hand index w) as [[w0 c0]|] eqn:Hc; [|done].
    cbn [mbind option_bind] in Hf.
    destruct (landmarks_forEach hands (S index) w0) as [[w1 c1]|] eqn:Hf1;
      [|done].
    injection Hf as <- _.
    destruct (IH _ _ _ Hf1) as (news & Hfw & Hlen & Hnews & Hu & Hd & Hw & Hh & Ht).
    clear IH Hf1.
    assert (Hstep : ∃ new0,
      fireworks w0 = fireworks w ++ new0 ∧ (length new0 ≤ 1)%nat ∧
      Forall (created_from (rng w)) new0 ∧
      uniform (rng w0) = uniform (rng w) ∧
      directions (rng w0) = directions (rng w) ∧
      width w0 = width w ∧ height w0 = height w ∧
      lastVideoTime w0 = lastVideoTime w).
    { unfold landmarks_callback in Hc.
      destruct (hand !! THUMB_TIP) as [thumbTip|]; [|done].
      destruct (hand !! INDEX_FINGER_TIP) as [indexTip|]; [|done].
      cbn [mbind option_bind] in Hc. destruct (_ && _).
      - match type of Hc with
        | context [Firework_new ?px ?py ?rs] =>
            pose proof (Firework_new_source px py rs) as [Hu0 Hd0];
            assert (Hcr : created_from rs (Firework_new px py rs).1)
              by (exists px, py, rs; split; [|split]; reflexivity);
            destruct (Firework_new px py rs) as [fw rs']
        end.
        injection Hc as <- _. exists [fw].
        cbn [fireworks rng width height lastVideoTime fst snd] in *.
        repeat split; try done. by apply Forall_singleton.
      - injection Hc as <- _. exists [].
        cbn [fireworks rng width height lastVideoTime]. rw app_nil_r.
        repeat split; try done. cbn. lia. }
    destruct Hstep as (new0 & Hfw0 & Hlen0 & Hnew0 & Hu0 & Hd0 & Hw0 & Hh0 & Ht0).
    exists (new0 ++ news). rw Hfw Hfw0 app_assoc length_app.
    split; [done|]. split; [cbn [length]; lia|]. split.
    { apply Forall_app. split; [done|].
      eapply list.Forall_impl; [exact Hnews|].
      intros b (px & py & rs & Hru & Hrd & ->).
      exists px, py, rs. split; [congruence|]. split; [congruence|done]. }
    repeat split; congruence.
Qed.

Lemma detection_new_bursts (frame : Frame num) w w' calls :
  detection frame w = Some (w', calls) →
  ∃ news,
    fireworks w' = fireworks w ++ news ∧
    Forall (created_from (rng w)) news ∧
    uniform (rng w') = uniform (rng w).
Proof.
  unfold detection. intros Hd.
  destruct (currentTime frame) as [t|];
    [|injection Hd as <- _; exists []; by rw app_nil_r].
  destruct (t !== lastVideoTime w);
    [|injection Hd as <- _; exists []; by rw app_nil_r].
  destruct (landmarks frame) as [hands|];
    [|injection Hd as <- _; exists []; by rw app_nil_r].
  destruct (landmarks_forEach_appends _ _ _ _ _ Hd)
    as (news & Hfw & _ & Hnews & Hu & _).
  by exists news.
Qed.

(** X6: the detection of a frame leaves the bursts that are there as they
    are and in place, and appends at most one new burst per reported hand;
    each new burst is created from the values of the random source of the
    sketch, and the canvas size is unchanged. *)
Theorem detection_appends_bursts (frame : Frame num) w w' calls :
  detection frame w = Some (w', calls) →
  ∃ news,
    fireworks w' = fireworks w ++ news ∧
    (length news ≤ length (default [] (landmarks frame)))%nat ∧
    Forall (created_from (rng w)) news ∧
    uniform (rng w') = uniform (rng w) ∧
    directions (rng w') = directions (rng w) ∧
    width w' = width w ∧ height w' = height w.
Proof.
  unfold detection. intros Hd.
  assert (Hskip : (w', calls) = (w, []) → ∃ news,
    fireworks w' = fireworks w ++ news ∧
    (length news ≤ length (default [] (landmarks frame)))%nat ∧
    Forall (created_from (rng w)) news ∧
    uniform (rng w') = uniform (rng w) ∧
    directions (rng w') = directions (rng w) ∧
    width w' = width w ∧ height w' = height w).
  { intros [= -> _]. exists []. rw app_nil_r. repeat split; try done.
    cbn. lia. }
  destruct (currentTime frame) as [t|]; [|by apply Hskip; injection Hd as <- <-].
  destruct (t !== lastVideoTime w);
    [|by apply Hskip; injection Hd as <- <-].
  destruct (landmarks frame) as [hands|].
  - destruct (landmarks_forEach_appends _ _ _ _ _ Hd)
      as (news & Hfw & Hlen & Hnews & Hu & Hdir & Hw & Hh & _).
    exists news. repeat split; done.
  - injection Hd as <- _. exists []. cbn [fireworks rng width height].
    rw app_nil_r. repeat split; done.
Qed.

End TriggerSequences.

(** ** The frame loop *)

Section FrameLoop.

Context {num : Type} `{Number num} `{Colour num}.
Local Open Scope num_scope.

Implicit Types (w : World num) (b : Firework num) (frame : Frame num).

Lemma detection_reachable frame w w' calls :
  Forall Firework_reachable (fireworks w) →
  detection frame w = Some (w', calls) →
  Forall Firework_reachable (fireworks w').
Proof.
  intros Hw Hd.
  destruct (detection_new_bursts frame w w' calls Hd)
    as (news & -> & Hnews & _).
  apply Forall_app. split; [done|].
  eapply list.Forall_impl; [exact Hnews|].
  intros b (px & py & rs & _ & _ & ->). apply reachable_new.
Qed.

Lemma show_only_active (l : list (Firework num)) :
  Forall Firework_inv l →
  concat (map Firework_show (reverse l)) =
  concat (map Firework_show (reverse (filter active l))).
Proof.
  induction 1 as [|b l Hb _ IH]; [done|].
  rw reverse_cons map_app concat_app IH. cbn [map concat]. rw app_nil_r.
  destruct (decide (active b)) as [Ha|Ha].
  - rw filter_cons_True // reverse_cons map_app concat_app.
    cbn [map concat]. rw app_nil_r //.
  - rw filter_cons_False //. unfold active in Ha.
    assert (Hd : done b = true) by (by destruct (done b)).
    unfold Firework_show. rw (Hb Hd). cbn. rw app_nil_r //.
Qed.

(** X3: a frame whose detection succeeds clears the canvas, issues the
    calls of the detection, updates every burst once, drops the bursts that
    are then done, and draws exactly the bursts that remain, the newest
    first; the stored pinch states, the random source and the canvas size
    are those left by the detection. *)
Theorem draw_renders_remaining frame w w0 dcalls :
  Forall Firework_reachable (fireworks w) →
  detection frame w = Some (w0, dcalls) →
  ∃ w',
    draw frame w =
      Some (w', Clear :: dcalls
                ++ concat (map Firework_show (reverse (fireworks w')))) ∧
    fireworks w' = filter active (map Firework_updated (fireworks w0)) ∧
    Forall (λ b, done b = false ∧ particles b ≠ []) (fireworks w') ∧
    handPinchStates w' = handPinchStates w0 ∧ rng w' = rng w0 ∧
    lastVideoTime w' = lastVideoTime w0 ∧
    width w' = width w0 ∧ height w' = height w0.
Proof.
  intros Hw Hd.
  pose proof (detection_reachable frame w w0 dcalls Hw Hd) as Hw0.
  assert (Hinv : Forall Firework_inv (map Firework_updated (fireworks w0))).
  { apply Forall_map. eapply list.Forall_impl; [exact Hw0|].
    intros b Hb. cbn. by apply Firework_updated_inv, Firework_reachable_inv. }
  exists (mkWorld (filter active (map Firework_updated (fireworks w0)))
            (handPinchStates w0) (lastVideoTime w0)
            (width w0) (height w0) (rng w0)).
  split; [|split; [reflexivity|]].
  - unfold draw. rw Hd. cbn [mbind option_bind]. rw fireworks_loop_spec.
    cbn [mbind option_bind fireworks app]. rw (show_only_active _ Hinv) //.
  - cbn [fireworks handPinchStates rng lastVideoTime width height].
    split; [|done]. apply list.Forall_forall.
    intros b [Hact Hb]%list_elem_of_filter. split; [exact Hact|].
    intros Hemp. apply list_elem_of_fmap in Hb as (b0 & -> & Hb0).
    assert (Hinv0 : Firework_inv b0).
    { apply Firework_reachable_inv.
      exact (proj1 (list.Forall_forall _ _) Hw0 b0 Hb0). }
    apply (Firework_updated_done b0 Hinv0) in Hemp. unfold active in Hact.
    congruence.
Qed.

Lemma landmarks_forEach_time (hands : list (list (Coordinate num)))
    index w w' calls :
  landmarks_forEach hands index w = Some (w', calls) →
  lastVideoTime w' = lastVideoTime w.
Proof.
  intros Hf. by destruct (landmarks_forEach_appends _ _ _ _ _ Hf)
    as (? & _ & _ & _ & _ & _ & _ & _ & ?).
Qed.

(** X4: a video frame is processed at most once.  After a frame whose time
    is equal to itself (every time but NaN), the same frame again runs no
    detection: it spawns no burst, keeps the stored pinch states and the
    random source, and only updates and draws the bursts. *)
Theorem frame_processed_once frame w w1 calls1 (t : num) :
  currentTime frame = Some t →
  eqb t t = true →
  draw frame w = Some (w1, calls1) →
  detection frame w1 = Some (w1, []) ∧
  draw frame w1 =
    Some (mkWorld (filter active (map Firework_updated (fireworks w1)))
                  (handPinchStates w1) (lastVideoTime w1)
                  (width w1) (height w1) (rng w1),
          Clear :: concat (map Firework_show
                     (reverse (map Firework_updated (fireworks w1))))).
Proof.
  intros Ht Hrefl Hdraw.
  assert (Htime : (t !== lastVideoTime w1) = false).
  { unfold draw in Hdraw.
    destruct (detection frame w) as [[w0 c0]|] eqn:Hd; [|done].
    cbn [mbind option_bind] in Hdraw. rw fireworks_loop_spec in Hdraw.
    cbn [mbind option_bind] in Hdraw. injection Hdraw as <- _.
    cbn [lastVideoTime]. unfold detection in Hd. rw Ht in Hd.
    destruct (t !== lastVideoTime w) eqn:Hnew.
    - destruct (landmarks frame) as [hands|].
      + apply landmarks_forEach_time in Hd. rw Hd. cbn [lastVideoTime].
        rw Hrefl //.
      + injection Hd as <- _. cbn [lastVideoTime]. rw Hrefl //.
    - by injection Hd as <- _. }
  assert (Hskip : detection frame w1 = Some (w1, [])).
  { unfold detection. rw Ht Htime //. }
  split; [exact Hskip|].
  unfold draw. rw Hskip. cbn [mbind option_bind]. rw fireworks_loop_spec //.
Qed.

Lemma exploded_window (x y hue : num) (rs1 rs2 : RandomSource num) j :
  (j < 120)%nat →
  window_agree rs1 rs2 →
  exploded x y hue (advance 1 0 rs1) j = exploded x y hue (advance 1 0 rs2) j.
Proof.
  intros Hj [Hu Hd]. unfold exploded, advance.
  cbn [uniform unext directions dnext].
  rw (Nat.add_0_l (dnext rs1)) (Nat.add_0_l (dnext rs2)) (Hd j Hj).
  replace (2 * j + (1 + unext rs1))%nat with (2 * j + 1 + unext rs1)%nat by lia.
  replace (2 * j + (1 + unext rs2))%nat with (2 * j + 1 + unext rs2)%nat by lia.
  replace (S (2 * j) + (1 + unext rs1))%nat
    with (2 * j + 2 + unext rs1)%nat by lia.
  replace (S (2 * j) + (1 + unext rs2))%nat
    with (2 * j + 2 + unext rs2)%nat by lia.
  rw (Hu (2 * j + 1)%nat); [lia|]. rw (Hu (2 * j + 2)%nat); [lia|]. done.
Qed.

(** X7: the creation of a burst reads the next 241 values and the next 120
    directions of the random source and nothing else: two sources that
    agree on them give the same burst, and the cursors move on by 241 and
    120. *)
Theorem burst_reads_window (x y : num) (rs1 rs2 : RandomSource num) :
  window_agree rs1 rs2 →
  (Firework_new x y rs1).1 = (Firework_new x y rs2).1 ∧
  unext (Firework_new x y rs1).2 = (241 + unext rs1)%nat ∧
  dnext (Firework_new x y rs1).2 = (120 + dnext rs1)%nat.
Proof.
  intros Hwin. rw !Firework_new_spec. cbn [fst snd random advance unext dnext].
  split; [|done].
  pose proof (proj1 Hwin 0%nat ltac:(lia)) as Hhue. cbn [Nat.add] in Hhue.
  rw Hhue. f_equal. apply map_ext_in. intros j [_ Hj]%in_seq.
  by apply exploded_window.
Qed.

End FrameLoop.

(** ** The motion of the particles, over the real numbers *)

Section MotionFacts.

Context `{Colour R}.
Local Open Scope R_scope.

Implicit Types (p q : Particle R) (b : Firework R) (rs : RandomSource R).

Ltac real_ops := cbn [lit add sub mul div ltb eqb sqrt R_Number] in *.
Ltac real_lits := unfold Q2R in *; cbn [Qnum Qden] in *.

Lemma drag_power (k : nat) : 0 < 0.92 ^ k <= 1.
Proof.
  induction k as [|k IH]; cbn [pow]; [lra|].
  destruct IH as [Hpos Hle]. split; nra.
Qed.

Lemma vel_after_0 (v : Vector R) : vel_after 0 v = v.
Proof. apply Vector_eq; cbn; lra. Qed.

Lemma pos_after_0 (c v : Vector R) : pos_after 0 c v = c.
Proof. apply Vector_eq; cbn; lra. Qed.

Lemma vel_after_S (k : nat) (v : Vector R) :
  Vector_add (Vector_mult (vel_after k v) 0.92)
             (Vector_add (createVector 0 0) (createVector 0 0.15))
  = vel_after (S k) v.
Proof.
  unfold vel_after, Vector_add, Vector_mult. cbn [vx vy pow]. real_ops.
  set (c := 0.92 ^ k). apply Vector_eq; cbn [vx vy]; real_lits; field.
Qed.

Lemma pos_after_S (k : nat) (c v : Vector R) :
  Vector_add (pos_after k c v) (vel_after (S k) v) = pos_after (S k) c v.
Proof.
  unfold pos_after, vel_after, Vector_add. cbn [vx vy pow]. real_ops.
  rw S_INR. set (d := 0.92 ^ k).
  apply Vector_eq; cbn [vx vy]; real_lits; field.
Qed.

(** The state of a particle after [n] steps: it has moved for the [k]
    steps at which its lifespan was positive. *)
Lemma iter_motion p n :
  acc p = createVector 0 0 →
  ∃ k, (k ≤ n)%nat ∧
    vel (Nat.iter n Particle_step p) = vel_after k (vel p) ∧
    pos (Nat.iter n Particle_step p) = pos_after k (pos p) (vel p) ∧
    (0 < lifespan (Nat.iter n Particle_step p) →
       acc (Nat.iter n Particle_step p) = createVector 0 0) ∧
    ((∀ j, (j < n)%nat → 0 < lifespan (Nat.iter j Particle_step p)) → k = n).
Proof.
  intros Hacc. induction n as [|n (k & Hk & Hvel & Hpos & Hzero & Hexact)].
  - exists 0%nat. cbn [Nat.iter nat_rect]. rw vel_after_0 pos_after_0.
    repeat split; done.
  - rw Nat.iter_succ. set (q := Nat.iter n Particle_step p) in *.
    destruct (Rlt_dec 0 (lifespan q)) as [Hlive|Hdead].
    + exists (S k). rw Particle_step_positive //.
      cbn [vel pos acc lifespan]. rw (Hzero Hlive) Hvel Hpos vel_after_S pos_after_S.
      split; [lia|]. split; [done|]. split; [done|]. split; [done|].
      intros Hall. f_equal. apply Hexact. intros j Hj. apply Hall. lia.
    + exists k. rw Particle_step_frozen; [lra|].
      cbn [vel pos acc lifespan]. split; [lia|]. split; [done|].
      split; [done|]. split; [intros Hlive; lra|].
      intros Hall. exfalso. apply Hdead. apply (Hall n). lia.
Qed.

(** X10: the motion of a particle in closed form.  From no accumulated
    force, after [n] steps before each of which the lifespan was positive,
    the horizontal velocity is the initial one times 0.92^n, the vertical
    velocity is 1.875 + 0.92^n (vy - 1.875), so it tends to the terminal
    velocity 1.875, and the position has moved by
    (11.5 vx (1 - 0.92^n), 1.875 n + 11.5 (vy - 1.875) (1 - 0.92^n)). *)
Theorem motion_closed_form p n :
  acc p = createVector 0 0 →
  (∀ j, (j < n)%nat → 0 < lifespan (Nat.iter j Particle_step p)) →
  vel (Nat.iter n Particle_step p) =
    createVector (0.92 ^ n * vx (vel p))
                 (1.875 + 0.92 ^ n * (vy (vel p) - 1.875)) ∧
  pos (Nat.iter n Particle_step p) =
    createVector
      (vx (pos p) + 11.5 * vx (vel p) * (1 - 0.92 ^ n))
      (vy (pos p) + 1.875 * INR n
       + 11.5 * (vy (vel p) - 1.875) * (1 - 0.92 ^ n)).
Proof.
  intros Hacc Hall.
  destruct (iter_motion p n Hacc) as (k & _ & Hvel & Hpos & _ & Hexact).
  rw Hvel Hpos (Hexact Hall). done.
Qed.

Lemma exploded_acc (x y hue : R) rs j :
  acc (exploded x y hue rs j) = createVector 0 0.
Proof. apply Vector_eq; cbn; real_lits; lra. Qed.

Lemma exploded_velocity (x y hue : R) rs j :
  source_ok rs →
  -22 <= vx (vel (exploded x y hue (advance 1 0 rs) j)) <= 22 ∧
  -22 <= vy (vel (exploded x y hue (advance 1 0 rs) j)) <= 22.
Proof.
  intros [Hu Hdir].
  assert (Hu' : ∀ n, 0 <= uniform (advance 1 0 rs) n < 1) by exact Hu.
  destruct (exploded_ranges x y hue (advance 1 0 rs) j Hu')
    as (dir & speed & -> & -> & Hspeed & _).
  unfold advance. cbn [directions dnext]. unfold Vector_mult.
  cbn [vx vy]. real_ops.
  pose proof (Hdir (j + (0 + dnext rs))%nat) as Hunit.
  set (dx := vx (directions rs (j + (0 + dnext rs)))) in *.
  set (dy := vy (directions rs (j + (0 + dnext rs)))) in *.
  assert (-1 <= dx <= 1) by (split; nra).
  assert (-1 <= dy <= 1) by (split; nra).
  assert (-speed <= dx * speed <= speed) by (split; nra).
  assert (-speed <= dy * speed <= speed) by (split; nra).
  repeat split; lra.
Qed.

Lemma exploded_bounded (x y hue : R) rs j n :
  source_ok rs →
  let q := Nat.iter n Particle_step (exploded x y hue (advance 1 0 rs) j) in
  x - 253 <= vx (pos q) <= x + 253 ∧
  -22 <= vx (vel q) <= 22 ∧ -22 <= vy (vel q) <= 22.
Proof.
  intros Hrs.
  destruct (exploded_velocity x y hue rs j Hrs) as [Hvx Hvy].
  destruct (iter_motion (exploded x y hue (advance 1 0 rs) j) n
              (exploded_acc _ _ _ _ _)) as (k & _ & Hvel & Hpos & _).
  cbv zeta. rw Hvel Hpos.
  unfold vel_after, pos_after. cbn [vx vy].
  change (vx (pos (exploded x y hue (advance 1 0 rs) j))) with x.
  destruct (drag_power k) as [Hc0 Hc1]. set (c := 0.92 ^ k) in *.
  set (u := vx (vel (exploded x y hue (advance 1 0 rs) j))) in *.
  set (v := vy (vel (exploded x y hue (advance 1 0 rs) j))) in *.
  assert (Hcu : -22 <= c * u <= 22) by (split; nra).
  assert (Hcv : -23.875 <= c * (v - 1.875) <= 20.125) by (split; nra).
  assert (Heu : -22 <= u * (1 - c) <= 22) by (split; nra).
  repeat split; lra.
Qed.

(** X11: in a burst created at the point (x, y) from a random source with
    values in [0, 1) and directions of length 1, after any number of
    updates no particle is further than 253 to the left or to the right of
    x, and no particle moves by more than 22 per step horizontally or
    vertically. *)
Theorem burst_motion_bounded (x y : R) rs n bn :
  source_ok rs →
  Firework_updates n (Firework_new x y rs).1 = Some bn →
  Forall (λ q,
    x - 253 <= vx (pos q) <= x + 253 ∧
    -22 <= vx (vel q) <= 22 ∧ -22 <= vy (vel q) <= 22) (particles bn).
Proof.
  intros Hrs.
  pose proof (Firework_new_kept x y rs) as Hkept.
  pose proof (Firework_new_particle x y rs) as Hpart.
  revert Hkept Hpart. generalize ((Firework_new x y rs).1).
  intros b0 Hkept Hpart Hup. rw Firework_updates_spec in Hup.
  apply (inj Some) in Hup. subst bn.
  rw particles_iter_updated particles_updated_iter.
  { apply frozen_once_negative. } { exact Hkept. }
  apply list.Forall_forall.
  intros q [_ (p & -> & Hp)%list_elem_of_fmap]%list_elem_of_filter.
  apply Hpart in Hp as [j ->].
  by apply exploded_bounded.
Qed.

Lemma lifespan_when_positive p n :
  0 <= decay p →
  0 < lifespan (Nat.iter n Particle_step p) →
  lifespan (Nat.iter n Particle_step p) = lifespan p - INR n * decay p.
Proof.
  intros Hd. induction n as [|n IH].
  - cbn [Nat.iter nat_rect INR]. lra.
  - rw Nat.iter_succ S_INR. intros Hpos.
    pose proof (decay_iter n p) as Hdn.
    destruct (Particle_step_cases (Nat.iter n Particle_step p))
      as ([[Hlive Hs]|[Hdead Hs]] & _).
    + rw Hs Hdn IH //. lra.
    + rw Hs in Hpos. lra.
Qed.

Lemma filter_kept_all (ps : list (Particle R)) :
  Forall kept ps → filter kept ps = ps.
Proof.
  induction 1 as [|p ps Hp _ IH]; [done|]. rw filter_cons_True // IH //.
Qed.

(** X9: how long a burst lasts.  In a burst created from a random source
    with values in [0, 1), no particle is removed by the first 63 updates;
    and after 170 updates or more, every particle that is still there has
    lifespan exactly 0, so the burst is gone unless the lifespan of some
    particle came to exactly 0. *)
Theorem burst_lifetime (x y : R) rs n bn :
  (∀ n, 0 <= uniform rs n < 1) →
  Firework_updates n (Firework_new x y rs).1 = Some bn →
  ((n ≤ 63)%nat → length (particles bn) = 120%nat) ∧
  ((170 ≤ n)%nat → Forall (λ q, lifespan q = 0) (particles bn)).
Proof.
  intros Hu.
  pose proof (Firework_new_kept x y rs) as Hkept.
  pose proof (Firework_new_particle x y rs) as Hpart.
  pose proof (proj1 (Firework_new_particles x y rs)) as Hlen.
  revert Hkept Hpart Hlen. generalize ((Firework_new x y rs).1).
  intros b0 Hkept Hpart Hlen Hup. rw Firework_updates_spec in Hup.
  apply (inj Some) in Hup. subst bn.
  rw particles_iter_updated particles_updated_iter.
  { apply frozen_once_negative. } { exact Hkept. }
  assert (Hranges : ∀ p, p ∈ particles b0 →
            lifespan p = 255 ∧ 1.5 <= decay p < 4).
  { intros p [j ->]%Hpart.
    assert (Hu' : ∀ n, 0 <= uniform (advance 1 0 rs) n < 1) by exact Hu.
    destruct (exploded_ranges x y (hue b0) (advance 1 0 rs) j Hu')
      as (_ & _ & _ & _ & _ & Hdecay).
    split; [|exact Hdecay]. cbn. real_lits. lra. }
  split.
  - intros Hn. rw filter_kept_all; [|rw length_map //].
    apply Forall_map, list.Forall_forall. intros p Hp. cbn.
    destruct (Hranges p Hp) as [Hl Hd]. apply kept_nonneg.
    pose proof (le_INR n 63 Hn) as Hn63.
    assert (H63 : INR 63 = 63) by (rw INR_IZR_INZ; reflexivity).
    rw H63 in Hn63. pose proof (pos_INR n) as Hn0.
    assert (Hnd : INR n * decay p <= 252) by nra.
    rw lifespan_linear; rw ?Hl; [lra|right; lra|lra].
  - intros Hn. apply list.Forall_forall.
    intros q [Hq (p & -> & Hp)%list_elem_of_fmap]%list_elem_of_filter.
    destruct (Hranges p Hp) as [Hl Hd]. apply kept_nonneg in Hq.
    destruct (Rle_lt_or_eq_dec _ _ Hq) as [Hpos|Heq]; [|lra].
    exfalso. pose proof (lifespan_when_positive p n ltac:(lra) Hpos) as Hlin.
    pose proof (le_INR 170 n Hn) as Hn170.
    assert (H170 : INR 170 = 170) by (rw INR_IZR_INZ; reflexivity).
    rw H170 in Hn170. rw Hl in Hlin.
    assert (Hnd : 255 <= INR n * decay p) by nra. lra.
Qed.

(** X8: a particle created with [explosion = false] starts straight up,
    with a vertical velocity in [-12, -8) when the value of the random
    source is in [0, 1), and has decay 0: its lifespan stays 255 under any
    number of steps, so it is never done and never removed. *)
Theorem launch_particle_never_expires (x y hue : R) rs n :
  0 <= uniform rs (unext rs) < 1 →
  let p := (Particle_new x y hue false rs).1 in
  vx (vel p) = 0 ∧ -12 <= vy (vel p) < -8 ∧ decay p = 0 ∧
  lifespan (Nat.iter n Particle_step p) = 255 ∧
  Particle_done (Nat.iter n Particle_step p) = false.
Proof.
  intros Hu p.
  assert (Hd : decay p = 0) by (cbn; real_lits; lra).
  assert (Hl : lifespan p = 255) by (cbn; real_lits; lra).
  assert (Hn : lifespan (Nat.iter n Particle_step p) = 255).
  { rw lifespan_linear; rw ?Hd ?Hl; [lra|right|]; lra. }
  split; [cbn; real_lits; lra|]. split; [cbn; real_ops; real_lits; lra|].
  split; [exact Hd|]. split; [exact Hn|].
  change (kept (Nat.iter n Particle_step p)). apply kept_nonneg. lra.
Qed.

Lemma step_aged p :
  0 <= lifespan p <= 255 → 1.5 <= decay p < 4 →
  kept (Particle_step p) → aged (Particle_step p).
Proof.
  intros Hl Hd Hk%kept_nonneg. unfold aged.
  destruct (Particle_step_cases p) as ([[Hpos Hs]|[Hle Hs]] & Hdec & _);
    rw Hdec; rw Hs in Hk |- *; lra.
Qed.

Lemma updated_burst_ok b :
  (length (particles b) ≤ 120)%nat →
  Forall (λ p, 0 <= lifespan p <= 255 ∧ 1.5 <= decay p < 4) (particles b) →
  active (Firework_updated b) → burst_ok (Firework_updated b).
Proof.
  intros Hlen Hps Hact. unfold active in Hact. unfold burst_ok.
  split; [exact Hact|]. revert Hact.
  unfold Firework_updated, particles_updated. cbn [done particles].
  intros Hact. split; [|split].
  - intros Hemp. rw Hemp in Hact. done.
  - etrans; [apply length_filter|]. rw length_map //.
  - apply list.Forall_forall.
    intros q [Hq (p & -> & Hp)%list_elem_of_fmap]%list_elem_of_filter.
    destruct (proj1 (list.Forall_forall _ _) Hps p Hp) as [Hl Hd].
    by apply step_aged.
Qed.

Lemma created_burst_fresh (rs0 : RandomSource R) b :
  (∀ n, 0 <= uniform rs0 n < 1) →
  created_from rs0 b →
  (length (particles b) ≤ 120)%nat ∧
  Forall (λ p, 0 <= lifespan p <= 255 ∧ 1.5 <= decay p < 4) (particles b).
Proof.
  intros Hu (px & py & rs & Hru & _ & ->).
  pose proof (Firework_new_particle px py rs) as Hpart.
  pose proof (proj1 (Firework_new_particles px py rs)) as Hlen.
  revert Hpart Hlen. generalize ((Firework_new px py rs).1).
  intros b0 Hpart Hlen. split; [lia|].
  apply list.Forall_forall. intros p [j ->]%Hpart.
  assert (Hu' : ∀ n, 0 <= uniform (advance 1 0 rs) n < 1).
  { intros n. cbn [uniform advance]. rw Hru. apply Hu. }
  destruct (exploded_ranges px py (hue b0) (advance 1 0 rs) j Hu')
    as (_ & _ & _ & _ & _ & Hdecay).
  split; [|exact Hdecay]. cbn. real_lits. lra.
Qed.

Lemma draw_World_ok (frame : Frame R) (w w' : World R) calls :
  World_ok w → draw frame w = Some (w', calls) → World_ok w'.
Proof.
  intros [Hu Hok] Hdraw. unfold draw in Hdraw.
  destruct (detection frame w) as [[w0 c0]|] eqn:Hd; [|done].
  cbn [mbind option_bind] in Hdraw. rw fireworks_loop_spec in Hdraw.
  cbn [mbind option_bind] in Hdraw. apply (inj Some) in Hdraw.
  injection Hdraw as <- _.
  destruct (detection_new_bursts frame w w0 c0 Hd)
    as (news & Hfw & Hnews & Hu0).
  split; cbn [rng fireworks].
  - intros n. rw Hu0. apply Hu.
  - apply list.Forall_forall.
    intros b' [Hact (b & -> & Hb)%list_elem_of_fmap]%list_elem_of_filter.
    rw Hfw in Hb. apply elem_of_app in Hb as [Hold|Hnew].
    + destruct (proj1 (list.Forall_forall _ _) Hok b Hold)
        as (_ & _ & Hlen & Hps).
      apply updated_burst_ok; [done| |done].
      eapply list.Forall_impl; [exact Hps|]. intros p [Hl Hdec]. cbn. lra.
    + pose proof (proj1 (list.Forall_forall _ _) Hnews b Hnew) as Hcr.
      destruct (created_burst_fresh (rng w) b Hu Hcr) as [Hlen Hps].
      by apply updated_burst_ok.
Qed.

Lemma strokes_faded_app (c1 c2 : list (DrawCall R)) :
  strokes_faded c1 → strokes_faded c2 → strokes_faded (c1 ++ c2).
Proof.
  intros H1 H2 h s v a [Hin|Hin]%elem_of_app; [by eapply H1|by eapply H2].
Qed.

Lemma strokes_faded_concat (cs : list (list (DrawCall R))) :
  Forall strokes_faded cs → strokes_faded (concat cs).
Proof.
  induction 1 as [|c cs Hc _ IH]; cbn [concat].
  - intros h s v a Hin. by apply elem_of_nil in Hin.
  - by apply strokes_faded_app.
Qed.

Ltac stroke_cases Hin :=
  repeat first
    [ apply elem_of_app in Hin as [Hin|Hin]
    | apply elem_of_cons in Hin as [Hin|Hin]
    | apply elem_of_nil in Hin; destruct Hin ];
  try discriminate Hin.

Lemma landmarks_callback_strokes (hand : list (Coordinate R)) index w w' calls :
  landmarks_callback hand index w = Some (w', calls) → strokes_faded calls.
Proof.
  unfold landmarks_callback.
  destruct (hand !! THUMB_TIP) as [thumbTip|]; [|done].
  destruct (hand !! INDEX_FINGER_TIP) as [indexTip|]; [|done].
  cbn [mbind option_bind].
  set (st := if _ && _ then _ else _). destruct st as [fws r].
  intros Hc. apply (inj Some) in Hc. apply (f_equal snd) in Hc.
  cbn [snd] in Hc. subst calls.
  intros h s v a Hin.
  destruct (_ <? _ * _)%num; [destruct (_ <? _)%num|];
    stroke_cases Hin; injection Hin as -> -> -> ->; real_ops; real_lits; lra.
Qed.

Lemma landmarks_forEach_strokes (hands : list (list (Coordinate R))) index
    w w' calls :
  landmarks_forEach hands index w = Some (w', calls) → strokes_faded calls.
Proof.
  revert index w w' calls.
  induction hands as [|hand hands IH]; intros index w w' calls Hf.
  - apply (inj Some) in Hf. apply (f_equal snd) in Hf. cbn in Hf. subst calls.
    intros h s v a Hin. by apply elem_of_nil in Hin.
  - cbn [landmarks_forEach] in Hf.
    destruct (landmarks_callback hand index w) as [[w0 c0]|] eqn:Hc; [|done].
    cbn [mbind option_bind] in Hf.
    destruct (landmarks_forEach hands (S index) w0) as [[w1 c1]|] eqn:Hr;
      [|done].
    cbn [mbind option_bind] in Hf. apply (inj Some) in Hf.
    apply (f_equal snd) in Hf. cbn [snd] in Hf. subst calls.
    apply strokes_faded_app.
    + by eapply landmarks_callback_strokes.
    + by eapply IH.
Qed.

Lemma detection_strokes (frame : Frame R) w w' calls :
  detection frame w = Some (w', calls) → strokes_faded calls.
Proof.
  unfold detection. intros Hd.
  assert (Hnone : ∀ v : World R,
            Some (v, @nil (DrawCall R)) = Some (w', calls) →
            strokes_faded calls).
  { intros v Hs. apply (inj Some) in Hs. apply (f_equal snd) in Hs.
    cbn in Hs. subst calls. intros h s v' a Hin. by apply elem_of_nil in Hin. }
  destruct (currentTime frame) as [t|]; [|by eapply Hnone].
  destruct (t !== lastVideoTime w)%num; [|by eapply Hnone].
  destruct (landmarks frame) as [hands|]; [|by eapply Hnone].
  by eapply landmarks_forEach_strokes.
Qed.

Lemma Particle_show_strokes (q : Particle R) :
  aged q → strokes_faded (Particle_show q).
Proof.
  intros [Hl _] h s v a Hin. unfold Particle_show in Hin.
  stroke_cases Hin. injection Hin as -> -> -> ->. real_ops. real_lits. lra.
Qed.

Lemma Firework_updated_strokes b :
  Forall (λ p, 0 <= lifespan p <= 255 ∧ 1.5 <= decay p < 4) (particles b) →
  strokes_faded (Firework_show (Firework_updated b)).
Proof.
  intros Hps. unfold Firework_show. apply strokes_faded_concat.
  apply Forall_map, list.Forall_forall. intros q Hq.
  apply Particle_show_strokes. revert Hq.
  unfold Firework_updated, particles_updated. cbn [particles].
  intros [Hq (p & -> & Hp)%list_elem_of_fmap]%list_elem_of_filter.
  destruct (proj1 (list.Forall_forall _ _) Hps p Hp) as [Hl Hd].
  by apply step_aged.
Qed.

Lemma draw_strokes (frame : Frame R) (w w' : World R) calls :
  World_ok w → draw frame w = Some (w', calls) → strokes_faded calls.
Proof.
  intros [Hu Hok] Hdraw. unfold draw in Hdraw.
  destruct (detection frame w) as [[w0 c0]|] eqn:Hd; [|done].
  cbn [mbind option_bind] in Hdraw. rw fireworks_loop_spec in Hdraw.
  cbn [mbind option_bind] in Hdraw. apply (inj Some) in Hdraw.
  apply (f_equal snd) in Hdraw. cbn [snd] in Hdraw. subst calls.
  destruct (detection_new_bursts frame w w0 c0 Hd)
    as (news & Hfw & Hnews & Hu0).
  apply (strokes_faded_app [Clear]).
  { intros h s v a Hin. stroke_cases Hin. }
  apply strokes_faded_app; [by eapply detection_strokes|].
  apply strokes_faded_concat, Forall_map, Forall_reverse, Forall_map.
  apply list.Forall_forall. intros b Hb.
  apply Firework_updated_strokes.
  rw Hfw in Hb. apply elem_of_app in Hb as [Hold|Hnew].
  - destruct (proj1 (list.Forall_forall _ _) Hok b Hold) as (_ & _ & _ & Hps).
    eapply list.Forall_impl; [exact Hps|]. intros p [Hl Hdec]. cbn. lra.
  - pose proof (proj1 (list.Forall_forall _ _) Hnews b Hnew) as Hcr.
    by destruct (created_burst_fresh (rng w) b Hu Hcr) as [_ Hps].
Qed.

Lemma fresh_burst_updated (x y : R) (rs : RandomSource R) :
  (∀ n, 0 <= uniform rs n < 1) →
  active (Firework_updated (Firework_new x y rs).1) ∧
  length (particles (Firework_updated (Firework_new x y rs).1)) = 120%nat.
Proof.
  intros Hu.
  assert (Hlen : length (particles_updated (particles (Firework_new x y rs).1))
                 = 120%nat).
  { unfold particles_updated. rewrite -> filter_kept_all.
    - rewrite -> length_map. apply Firework_new_particles.
    - apply Forall_map, list.Forall_forall.
      intros p [j ->]%Firework_new_particle. apply kept_nonneg.
      assert (Hu' : ∀ n, 0 <= uniform (advance 1 0 rs) n < 1) by exact Hu.
      destruct (exploded_ranges x y (hue (Firework_new x y rs).1) _ j Hu')
        as (_ & _ & _ & _ & _ & Hdec).
      generalize dependent (hue (Firework_new x y rs).1). intros hue0 Hdec.
      destruct (Particle_step_cases (exploded x y hue0 (advance 1 0 rs) j))
        as ([[_ ->]|[Hle _]] & _).
      + cbn [lifespan exploded] in *. cbn [lit R_Number]. 
        unfold Q2R in *; cbn [Qnum Qden] in *. lra.
      + cbn [lifespan exploded lit R_Number] in Hle.
        unfold Q2R in *; cbn [Qnum Qden] in *. lra. }
  pose proof (proj2 (Firework_new_particles x y rs)) as Hdone.
  revert Hlen Hdone. generalize ((Firework_new x y rs).1). intros b Hlen Hdone.
  unfold active, Firework_updated. cbn [done particles].
  rewrite -> Hlen. split; [exact Hdone|reflexivity].
Qed.

(* a frame with one pinched hand that was not pinched before, from a state
   without bursts: a burst is created and updated *)
Lemma pinch_frame_spawns (t : R) (hand : list (Coordinate R)) thumbTip indexTip
    (w : World R) :
  hand !! THUMB_TIP = Some thumbTip → hand !! INDEX_FINGER_TIP = Some indexTip →
  t ≠ lastVideoTime w → distance thumbTip indexTip < 0.05 →
  wasPinched 0 w = false → fireworks w = [] →
  (∀ n, 0 <= uniform (rng w) n < 1) →
  ∃ w' calls,
    draw (mkFrame (Some t) (Some [hand])) w = Some (w', calls) ∧
    length (fireworks w') = 1%nat.
Proof.
  intros Ht Hi Hne Hdist Hwas Hnil Hu.
  destruct (landmarks_callback_spec hand 0
              (mkWorld (fireworks w) (handPinchStates w) t (width w)
                       (height w) (rng w))
              thumbTip indexTip Ht Hi) as [calls Hc].
  cbv zeta in Hc.
  assert (Hp : ltb (distance thumbTip indexTip) (pinchThreshold : R) = true).
  { apply Rltb_true. unfold pinchThreshold. cbn [lit R_Number].
    unfold Q2R; cbn [Qnum Qden]; lra. }
  assert (Hspawn : ltb (distance thumbTip indexTip) (pinchThreshold : R)
              && negb (wasPinched 0
                         (mkWorld (fireworks w) (handPinchStates w) t
                                  (width w) (height w) (rng w))) = true).
  { rewrite -> Hp. change (wasPinched 0 _) with (wasPinched 0 w).
    rewrite -> Hwas. reflexivity. }
  rewrite -> Hspawn in Hc. rewrite -> Hp in Hc.
  cbn [width height rng fireworks handPinchStates lastVideoTime] in Hc.
  assert (Hact := fresh_burst_updated
            ((x thumbTip + x indexTip) / lit 2 * width w)%num
            ((y thumbTip + y indexTip) / lit 2 * height w)%num (rng w) Hu).
  revert Hc Hact.
  generalize (Firework_new ((x thumbTip + x indexTip) / lit 2 * width w)%num
                ((y thumbTip + y indexTip) / lit 2 * height w)%num (rng w)).
  intros created Hc [Hact Hlen].
  assert (Hdet : detection (mkFrame (Some t) (Some [hand])) w =
                 Some (mkWorld (fireworks w ++ [created.1])
                         (<[0%nat := true]> (handPinchStates w)) t
                         (width w) (height w) created.2, calls ++ [])).
  { unfold detection. cbn [currentTime landmarks].
    assert (Hneb : eqb t (lastVideoTime w) = false) by by apply Reqb_false.
    rewrite -> Hneb. cbn [negb landmarks_forEach]. rewrite -> Hc.
    reflexivity. }
  eexists _, _. unfold draw. rewrite -> Hdet.
  cbn [mbind option_bind fireworks]. rewrite -> fireworks_loop_spec.
  cbn [mbind option_bind]. split; [reflexivity|].
  cbn [fireworks]. rewrite -> Hnil.
  cbn [app map]. rewrite -> filter_cons_True by exact Hact. reflexivity.
Qed.

(** X12: an invariant of the sketch.  From the start, with a random source
    whose values are in [0, 1), after any frames that succeed every burst
    that the sketch holds is not done, has between 1 and 120 particles, and
    each of its particles has a lifespan between 0 and 253.5 and a decay in
    [1.5, 4).  And every stroke issued in any of the frames has an alpha
    between 0 and 253.5 / 255: a burst is updated before it is drawn, so no
    particle is ever drawn at lifespan 255. *)
Theorem run_keeps_bursts_ok (frames : list (Frame R)) (cw ch : R) rs w' calls :
  (∀ n, 0 <= uniform rs n < 1) →
  run frames (initial cw ch rs) = Some (w', calls) →
  Forall (λ b,
    done b = false ∧ particles b ≠ [] ∧ (length (particles b) ≤ 120)%nat ∧
    Forall (λ p, 0 <= lifespan p <= 253.5 ∧ 1.5 <= decay p < 4)
           (particles b)) (fireworks w') ∧
  Forall (λ frame_calls,
    ∀ h s v a, Stroke h s v a ∈ frame_calls → 0 <= a <= 253.5 / 255) calls.
Proof.
  intros Hu Hrun.
  assert (Hinit : World_ok (initial cw ch rs)) by (split; [exact Hu|constructor]).
  revert Hinit Hrun. generalize (initial cw ch rs). revert calls.
  induction frames as [|frame frames IH]; intros calls w Hw Hrun.
  - apply (inj Some) in Hrun.
    pose proof (f_equal fst Hrun) as Hw1. pose proof (f_equal snd Hrun) as Hc1.
    cbn in Hw1, Hc1. subst w' calls. split; [exact (proj2 Hw)|constructor].
  - cbn [run] in Hrun.
    destruct (draw frame w) as [[w0 c0]|] eqn:Hd; [|done].
    cbn [mbind option_bind] in Hrun.
    destruct (run frames w0) as [[w1 c1]|] eqn:Hr; [|done].
    cbn [mbind option_bind] in Hrun. apply (inj Some) in Hrun.
    pose proof (f_equal fst Hrun) as Hw1. pose proof (f_equal snd Hrun) as Hc1.
    cbn [fst snd] in Hw1, Hc1. subst w' calls.
    destruct (IH c1 w0 (draw_World_ok frame w w0 c0 Hw Hd) Hr) as [Hb Hc].
    split; [exact Hb|]. constructor; [|exact Hc].
    exact (draw_strokes frame w w0 c0 Hw Hd).
Qed.

(** X13: a burst is spawned inside the canvas.  When the two fingertips of
    a hand are in the unit square and the canvas has a width and a height
    that are not negative, every particle of a burst that the callback
    creates for the hand starts between 0 and the width and between 0 and
    the height. *)
Theorem spawn_inside_canvas (hand : list (Coordinate R)) index (w w' : World R)
    (thumbTip indexTip : Coordinate R) calls :
  hand !! THUMB_TIP = Some thumbTip →
  hand !! INDEX_FINGER_TIP = Some indexTip →
  0 <= x thumbTip <= 1 → 0 <= y thumbTip <= 1 →
  0 <= x indexTip <= 1 → 0 <= y indexTip <= 1 →
  0 <= width w → 0 <= height w →
  landmarks_callback hand index w = Some (w', calls) →
  ∃ news,
    fireworks w' = fireworks w ++ news ∧
    Forall (λ b,
      Forall (λ p, 0 <= vx (pos p) <= width w ∧ 0 <= vy (pos p) <= height w)
             (particles b)) news.
Proof.
  intros Ht Hi Htx Hty Hix Hiy Hw Hh Hcall.
  destruct (landmarks_callback_spec hand index w _ _ Ht Hi) as [calls' Hc].
  cbv zeta in Hc. rw Hcall in Hc. apply (inj Some) in Hc.
  apply (f_equal fst) in Hc. cbn [fst] in Hc. subst w'. cbn [fireworks].
  destruct (_ && _).
  - eexists [_]. split; [reflexivity|]. apply Forall_singleton.
    rw Firework_new_spec. cbn [fst particles].
    apply Forall_map, list.Forall_forall. intros j _. cbn. real_ops.
    assert (0 <= (x thumbTip + x indexTip) / Q2R 2 <= 1)
      by (real_lits; lra).
    assert (0 <= (y thumbTip + y indexTip) / Q2R 2 <= 1)
      by (real_lits; lra).
    split; split; nra.
  - exists []. rw app_nil_r. split; [done|]. constructor.
Qed.

(** X14: the pinch test without the square root.  The distance between
    the two fingertips is below the threshold 0.05 exactly when the sum of
    the squares of the two coordinate differences is below 0.0025; the
    distance is not negative and does not depend on the order of the two
    landmarks. *)
Theorem pinch_iff_squared (thumbTip indexTip : Coordinate R) :
  let dx := x thumbTip - x indexTip in
  let dy := y thumbTip - y indexTip in
  (Rltb (distance thumbTip indexTip) pinchThreshold = true ↔
     dx * dx + dy * dy < 0.0025) ∧
  0 <= distance thumbTip indexTip ∧
  distance thumbTip indexTip = distance indexTip thumbTip.
Proof.
  intros dx dy. unfold distance, pinchThreshold. real_ops. fold dx dy.
  assert (Hs : 0 <= dx * dx + dy * dy) by nra.
  pose proof (sqrt_pos (dx * dx + dy * dy)) as Hpos.
  pose proof (sqrt_sqrt _ Hs) as Hsq.
  set (s := dx * dx + dy * dy) in *. set (r := R_sqrt.sqrt s) in *.
  split; [|split; [exact Hpos|]].
  - rw Rltb_true. split; intros Hlt.
    + assert (r * r < 0.05 * 0.05) by nra. lra.
    + destruct (Rlt_dec r 0.05) as [|Hge]; [done|].
      assert (0.05 * 0.05 <= r * r) by nra. lra.
  - subst r s dx dy. f_equal. ring.
Qed.

(** X15: the hint drawn for a hand.  The callback brackets its calls by
    push and pop.  With the distance between the fingertips below 0.05 it
    draws a circle of diameter 20 at the midpoint of the fingertips scaled
    to the canvas, where a burst would spawn, in the colour of a pinch;
    from 0.05 to below 0.1 it draws the circle in the colour of an
    approach; from 0.1 on it draws no circle. *)
Theorem hint_circle (hand : list (Coordinate R)) index (w : World R)
    (thumbTip indexTip : Coordinate R) :
  hand !! THUMB_TIP = Some thumbTip →
  hand !! INDEX_FINGER_TIP = Some indexTip →
  let d := distance thumbTip indexTip in
  let cx := (x thumbTip + x indexTip) / 2 * width w in
  let cy := (y thumbTip + y indexTip) / 2 * height w in
  ∃ w' calls,
    landmarks_callback hand index w = Some (w', calls) ∧
    (d < 0.05 →
       calls = [Push; NoFill; Stroke 0 0 255 0.4; StrokeWeight 4;
                Stroke 0 255 255 0.6; Stroke 100 255 255 0.8;
                Circle cx cy 20; Pop]) ∧
    (0.05 <= d < 0.1 →
       calls = [Push; NoFill; Stroke 0 0 255 0.4; StrokeWeight 4;
                Stroke 0 255 255 0.6; Circle cx cy 20; Pop]) ∧
    (0.1 <= d →
       calls = [Push; NoFill; Stroke 0 0 255 0.4; StrokeWeight 4; Pop]).
Proof.
  intros Ht Hi d cx cy. unfold landmarks_callback. rw Ht Hi.
  cbn [mbind option_bind]. fold d.
  match goal with
  | |- context [Firework_new ?px ?py ?r] => generalize (Firework_new px py r)
  end.
  intros [fw r'].
  match goal with
  | |- context [(?p && negb ?q)] => destruct (p && negb q)
  end;
  (eexists _, _; split; [reflexivity|]);
  (unfold pinchThreshold; real_ops; fold d;
   change (Q2R 0) with (Q2R (0 # 1)); change (Q2R 255) with (Q2R (255 # 1));
   change (Q2R 4) with (Q2R (4 # 1)); change (Q2R 100) with (Q2R (100 # 1));
   change (Q2R 20) with (Q2R (20 # 1)); change (Q2R 2) with (Q2R (2 # 1));
   rw !Q2R_integer; fold cx cy;
   split; [|split]; intros Hd;
   [ assert (Rltb d (0.05 * 2) = true) as -> by (apply Rltb_true; lra);
     assert (Rltb d 0.05 = true) as -> by (by apply Rltb_true)
   | assert (Rltb d (0.05 * 2) = true) as -> by (apply Rltb_true; lra);
     assert (Rltb d 0.05 = false) as -> by (apply Rltb_false; lra)
   | assert (Rltb d (0.05 * 2) = false) as -> by (apply Rltb_false; lra) ];
   reflexivity).
Qed.

End MotionFacts.

(** ** The further properties at the sample inputs *)

Section MoreInstances.

#[local] Existing Instance p5_Colour.

Local Open Scope R_scope.

Lemma sample_frame_classified (d : Q) (p : bool) :
  isPinched (sample_hand d : list (Coordinate float)) = Some p →
  frame_classified 0 [sample_hand d : list (Coordinate float)] p.
Proof.
  intros Hp. split.
  - apply Forall_cons; [|apply Forall_nil]. split; eexists; reflexivity.
  - exists (sample_hand d). split; [reflexivity|exact Hp].
Defined.

Lemma spawns_are_rising_edges_witness :
  ∃ ns,
    trigger_trace 0
      [[sample_hand 0.03]; [sample_hand 0.08]; [sample_hand 0.03]]
      (sample_world : World float) = Some ns ∧
    ns = [1; 0; 1]%nat.
Proof.
  assert (Hfs : Forall2 (frame_classified 0)
            [[sample_hand 0.03 : list (Coordinate float)];
             [sample_hand 0.08]; [sample_hand 0.03]] [true; false; true]).
  { apply Forall2_cons; [apply sample_frame_classified; reflexivity|].
    apply Forall2_cons; [apply sample_frame_classified; reflexivity|].
    apply Forall2_cons; [apply sample_frame_classified; reflexivity|].
    apply Forall2_nil. }
  destruct (spawns_are_rising_edges 0 _ _ sample_world Hfs)
    as (ns & Htrace & Hns & _).
  exists ns. split; [exact Htrace|]. rewrite -> Hns. reflexivity.
Defined.

Lemma pinch_state_survives_absence_witness :
  ∃ w',
    detections [[]; []] (sample_world_pinched : World float) = Some w' ∧
    frame_spawns 0 [sample_hand 0.03] w' = Some 0%nat.
Proof.
  assert (Habs : Forall (λ hands : list (list (Coordinate float)),
            Forall wellformed hands ∧ (length hands ≤ 0)%nat) [[]; []]).
  { repeat (apply Forall_cons; [split; [apply Forall_nil|apply le_n]|]).
    apply Forall_nil. }
  destruct (pinch_state_survives_absence 0 [[]; []] [sample_hand 0.03] true
              sample_world_pinched Habs
              (sample_frame_classified 0.03 true eq_refl))
    as (w' & Hd & _ & Hspawn).
  exists w'. split; [exact Hd|exact Hspawn].
Defined.

Lemma draw_renders_remaining_witness :
  match detection (sample_frame 1 0.03) (sample_world : World float) with
  | Some (w0, dcalls) =>
      ∃ w', draw (sample_frame 1 0.03) sample_world =
              Some (w', Clear :: dcalls
                        ++ concat (map Firework_show (reverse (fireworks w'))))
  | None => False
  end.
Proof.
  destruct (detection (sample_frame 1 0.03) (sample_world : World float))
    as [[w0 dcalls]|] eqn:Hd.
  - destruct (draw_renders_remaining (sample_frame 1 0.03) sample_world
                w0 dcalls (Forall_nil _) Hd) as (w' & Hdraw & _).
    exists w'. exact Hdraw.
  - apply (f_equal (from_option (λ _, true) false)) in Hd.
    vm_compute in Hd. discriminate Hd.
Defined.

Lemma frame_processed_once_witness :
  match draw (sample_frame 1 0.03) (sample_world : World float) with
  | Some (w1, _) => detection (sample_frame 1 0.03) w1 = Some (w1, [])
  | None => False
  end.
Proof.
  assert (Hrefl : eqb (lit 1 : float) (lit 1) = true)
    by (vm_compute; reflexivity).
  destruct (draw (sample_frame 1 0.03) (sample_world : World float))
    as [[w1 c1]|] eqn:Hd.
  - exact (proj1 (frame_processed_once (sample_frame 1 0.03) sample_world
                    w1 c1 (lit 1) eq_refl Hrefl Hd)).
  - apply (f_equal (from_option (λ _, true) false)) in Hd.
    vm_compute in Hd. discriminate Hd.
Defined.

Lemma detection_appends_bursts_witness :
  match detection (sample_frame 1 0.03) (sample_world : World float) with
  | Some (w', _) =>
      ∃ news, fireworks w' = fireworks (sample_world : World float) ++ news ∧
              (length news ≤ 1)%nat
  | None => False
  end.
Proof.
  destruct (detection (sample_frame 1 0.03) (sample_world : World float))
    as [[w' calls]|] eqn:Hd.
  - destruct (detection_appends_bursts (sample_frame 1 0.03) sample_world
                w' calls Hd) as (news & Hfw & Hlen & _).
    exists news. split; [exact Hfw|exact Hlen].
  - apply (f_equal (from_option (λ _, true) false)) in Hd.
    vm_compute in Hd. discriminate Hd.
Defined.

Lemma burst_reads_window_witness :
  window_agree (sample_source : RandomSource float) sample_source_again ∧
  (Firework_new (lit 0) (lit 0) (sample_source : RandomSource float)).1 =
  (Firework_new (lit 0) (lit 0) sample_source_again).1.
Proof.
  assert (Hwin : window_agree (sample_source : RandomSource float)
                              sample_source_again).
  { split; intros i _; cbn; [destruct (Nat.even _)|]; reflexivity. }
  split; [exact Hwin|].
  exact (proj1 (burst_reads_window (lit 0) (lit 0) _ _ Hwin)).
Defined.

Lemma sample_source_ok : source_ok (sample_source : RandomSource R).
Proof.
  split; [exact sample_source_uniform|].
  intros n. cbn. unfold Q2R; cbn [Qnum Qden]. lra.
Defined.

Lemma launch_particle_never_expires_witness :
  0 <= uniform (sample_source : RandomSource R) 0 < 1 ∧
  lifespan (Nat.iter 1000 Particle_step
              (Particle_new 0 0 0 false (sample_source : RandomSource R)).1)
    = 255.
Proof.
  split; [exact (sample_source_uniform 0)|].
  exact (proj1 (proj2 (proj2 (proj2
    (launch_particle_never_expires 0 0 0 sample_source 1000
       (sample_source_uniform 0)))))).
Defined.

Lemma burst_lifetime_witness :
  length (particles (Nat.iter 3 Firework_updated
            (Firework_new 0 0 (sample_source : RandomSource R)).1))
    = 120%nat.
Proof.
  refine (proj1 (burst_lifetime 0 0 sample_source 3 _ sample_source_uniform
                   (Firework_updates_spec 3 _)) _).
  repeat constructor.
Defined.

Lemma motion_closed_form_witness :
  acc (sample_particle : Particle R) = createVector 0 0 ∧
  vel (Nat.iter 1 Particle_step (sample_particle : Particle R)) =
    createVector (0.92 ^ 1 * vx (vel (sample_particle : Particle R)))
      (1.875 + 0.92 ^ 1 * (vy (vel (sample_particle : Particle R)) - 1.875)).
Proof.
  assert (Hacc : acc (sample_particle : Particle R) = createVector 0 0)
    by apply exploded_acc.
  split; [exact Hacc|].
  refine (proj1 (motion_closed_form sample_particle 1 Hacc _)).
  intros j Hj. assert (j = 0%nat) as -> by lia.
  cbn. unfold Q2R; cbn [Qnum Qden]. lra.
Defined.

Lemma burst_motion_bounded_witness :
  source_ok (sample_source : RandomSource R) ∧
  Forall (λ q,
    0 - 253 <= vx (pos q) <= 0 + 253 ∧
    -22 <= vx (vel q) <= 22 ∧ -22 <= vy (vel q) <= 22)
    (particles (Nat.iter 3 Firework_updated
                  (Firework_new 0 0 (sample_source : RandomSource R)).1)).
Proof.
  split; [exact sample_source_ok|].
  exact (burst_motion_bounded 0 0 sample_source 3 _ sample_source_ok
           (Firework_updates_spec 3 _)).
Defined.

Lemma run_keeps_bursts_ok_witness :
  (∀ n, 0 <= uniform (sample_source : RandomSource R) n < 1) ∧
  ∃ w' calls,
    run [sample_frame 1 0.03] (initial 640 480 (sample_source : RandomSource R))
      = Some (w', calls) ∧
    length (fireworks w') = 1%nat ∧
    Forall (λ b : Firework R,
      done b = false ∧ particles b ≠ [] ∧ (length (particles b) ≤ 120)%nat ∧
      Forall (λ p, 0 <= lifespan p <= 253.5 ∧ 1.5 <= decay p < 4)
             (particles b)) (fireworks w') ∧
    Forall (λ frame_calls : list (DrawCall R),
      ∀ h s v a, Stroke h s v a ∈ frame_calls → 0 <= a <= 253.5 / 255) calls.
Proof.
  split; [exact sample_source_uniform|].
  assert (Hdist : distance (mkCoordinate (lit 0.03) (lit 0) (lit 0))
                    (origin : Coordinate R) < 0.05).
  { assert (Hd : hand_distance (sample_hand 0.03 : list (Coordinate R))
                 = Some (Q2R 0.03)).
    { apply sample_hand_distance. unfold Q2R; cbn [Qnum Qden]; lra. }
    apply (inj Some) in Hd. rewrite -> Hd. unfold Q2R; cbn [Qnum Qden]; lra. }
  assert (Hne : Q2R 1 ≠ lastVideoTime
                          (initial 640 480 (sample_source : RandomSource R))).
  { cbn [initial lastVideoTime lit R_Number]. unfold Q2R; cbn [Qnum Qden]. lra. }
  destruct (pinch_frame_spawns (Q2R 1) (sample_hand 0.03) _ _
              (initial 640 480 sample_source) eq_refl eq_refl Hne Hdist
              eq_refl eq_refl sample_source_uniform) as (w1 & c1 & Hdraw & Hlen).
  assert (Hrun : run [sample_frame 1 0.03]
                   (initial 640 480 (sample_source : RandomSource R))
                 = Some (w1, [c1])).
  { cbn [run]. change (sample_frame 1 0.03 : Frame R)
      with (mkFrame (Some (Q2R 1)) (Some [sample_hand 0.03 : list (Coordinate R)])).
    rewrite -> Hdraw. reflexivity. }
  exists w1, [c1]. split; [exact Hrun|]. split; [exact Hlen|].
  exact (run_keeps_bursts_ok [sample_frame 1 0.03] 640 480 sample_source
           w1 [c1] sample_source_uniform Hrun).
Defined.

Lemma spawn_inside_canvas_witness :
  ∃ w' news,
    fireworks w' = fireworks (sample_world : World R) ++ news ∧
    Forall (λ b,
      Forall (λ p, 0 <= vx (pos p) <= width (sample_world : World R) ∧
                   0 <= vy (pos p) <= height (sample_world : World R))
             (particles b)) news.
Proof.
  assert (Hwf : wellformed (sample_hand 0.03 : list (Coordinate R))).
  { split; eexists; reflexivity. }
  destruct (landmarks_callback_effect (sample_hand 0.03) 0
              (sample_world : World R) Hwf) as (w' & calls & _ & Hc & _).
  pose (thumb := mkCoordinate (lit 0.03) (lit 0) (lit 0) : Coordinate R).
  assert (Htx : 0 <= x thumb <= 1) by (cbn; unfold Q2R; cbn [Qnum Qden]; lra).
  assert (Hty : 0 <= y thumb <= 1) by (cbn; unfold Q2R; cbn [Qnum Qden]; lra).
  assert (Hix : 0 <= x (origin : Coordinate R) <= 1)
    by (cbn; unfold Q2R; cbn [Qnum Qden]; lra).
  assert (Hiy : 0 <= y (origin : Coordinate R) <= 1)
    by (cbn; unfold Q2R; cbn [Qnum Qden]; lra).
  assert (Hw : 0 <= width (sample_world : World R))
    by (cbn; unfold Q2R; cbn [Qnum Qden]; lra).
  assert (Hh : 0 <= height (sample_world : World R))
    by (cbn; unfold Q2R; cbn [Qnum Qden]; lra).
  destruct (spawn_inside_canvas (sample_hand 0.03) 0 sample_world w'
              thumb origin calls
              eq_refl eq_refl Htx Hty Hix Hiy Hw Hh Hc) as (news & Hfw & Hin).
  exists w', news. split; [exact Hfw|exact Hin].
Defined.

Lemma hint_circle_witness :
  ∃ w' calls,
    landmarks_callback (sample_hand 0.03) 0 (sample_world : World R)
      = Some (w', calls).
Proof.
  destruct (hint_circle (sample_hand 0.03) 0 (sample_world : World R)
              (mkCoordinate (lit 0.03) (lit 0) (lit 0)) origin
              eq_refl eq_refl) as (w' & calls & Hc & _).
  exists w', calls. exact Hc.
Defined.

End MoreInstances.
